(** * The video channel pipeline of core/video_channel.cpp

    A shallow embedding of [video_channel::impl]: the per-tick loop body, the
    route registry, the timecode listener registry and the format setter,
    with the theorems that settle the claims made about them. *)

From Stdlib Require Import ZArith Lia.
From stdpp Require Import base gmap list strings sorting pretty.

Open Scope Z_scope.

(** ** Results of calls *)

(** What a caught exception carries: the text of [what()]. *)
Definition exn := string.

(** A call into a collaborator either returns or throws. *)
Inductive outcome (A : Type) : Type :=
  | Returned (a : A)
  | Threw (e : exn).
Arguments Returned {A} a.
Arguments Threw {A} e.

(** ** Format descriptor *)

(** Modelled from the spec: [core::video_format_desc] is declared in
    video_format.h, which is not part of the sources at hand.  The record
    keeps the fields the spec lists; the channel itself reads only
    [audio_cadence] and [name]. *)
Record video_format_desc := {
  name : string;
  width : Z;
  height : Z;
  fps_num : Z;
  fps_den : Z;
  audio_sample_rate : Z;
  audio_cadence : list Z
}.

(** ** Routes *)

(** Modelled from the spec: [core::route] is declared outside the sources at
    hand; [impl::route] assigns its [format_desc] and [name], the tick calls
    its [signal]. *)
Record core_route := {
  route_format_desc : video_format_desc;
  route_name : string
}.

(** A route object lives in a control block; the block's position in
    [route_heap] is its identity and the number next to it counts the strong
    references that are held outside the channel.  A [weak_ptr] names a block
    or is empty. *)
Abbreviation route_ptr := nat.
Abbreviation weak_ptr := (option nat).

(** [lock()]: the route and its identity when an owner is left, nothing
    otherwise. *)
Definition weak_lock (heap : list (core_route * nat)) (p : weak_ptr) :
    option (route_ptr * core_route) :=
  match p with
  | None => None
  | Some a =>
      match heap !! a with
      | Some (r, S _) => Some (a, r)
      | _ => None
      end
  end.

(** ** int64_t *)

Definition INT64_MAX : Z := 2 ^ 63 - 1.

(** The value an [int64_t] holds after an operation whose exact result is
    [z]: two's complement wrap-around. *)
Definition wrap64 (z : Z) : Z := (z + 2 ^ 63) mod 2 ^ 64 - 2 ^ 63.

(** ** Collaborators *)

(** The stage, the mixer, the output, the channel timecode, the frames and
    the monitor states are implemented outside video_channel.cpp.  They are
    taken as parameters: a type for the object's state and, for every member
    the channel calls, a function from the state before the call to the
    outcome and the state after it. *)
Class Collaborators := {
  draw_frame : Type;
  const_frame : Type;
  frame_timecode : Type;
  sub_state : Type;
  (* frame/draw_frame.h *)
  draw_frame_pop : draw_frame → draw_frame;
  draw_frame_of : list draw_frame → draw_frame;
  (* channel_timecode *)
  channel_timecode : Type;
  timecode_start : channel_timecode → channel_timecode;
  timecode_tick : bool → channel_timecode → outcome frame_timecode * channel_timecode;
  timecode_change_format :
    video_format_desc → channel_timecode → outcome unit * channel_timecode;
  timecode_source_name : channel_timecode → string;
  timecode_string : frame_timecode → string;
  (* producer/stage.h *)
  stage : Type;
  stage_call :
    video_format_desc → Z → stage → outcome (list (Z * draw_frame)) * stage;
  stage_state : stage → sub_state;
  stage_clear : stage → outcome unit * stage;
  (* mixer/mixer.h *)
  mixer : Type;
  mixer_call :
    list (Z * draw_frame) → video_format_desc → Z → mixer →
    outcome const_frame * mixer;
  mixer_state : mixer → sub_state;
  (* consumer/output.h *)
  output : Type;
  output_call :
    frame_timecode → const_frame → video_format_desc → output →
    outcome unit * output;
  output_state : output → sub_state;
  (* monitor/monitor.h: [monitor::state] as it is default-constructed, and
     its members [clear()], [insert_or_assign(name, state)] and
     [operator[](name) = text] *)
  monitor_state : Type;
  monitor_empty : monitor_state;
  monitor_clear : monitor_state → monitor_state;
  monitor_insert_or_assign : string → sub_state → monitor_state → monitor_state;
  monitor_assign : string → string → monitor_state → monitor_state;
  (* route->signal(frame) *)
  route_signal : core_route → draw_frame → outcome unit;
  (* what the tick callback writes to *)
  sink : Type
}.

(** [std::unordered_map] promises to visit every entry once and promises
    nothing about the order.  The order is a parameter: any function that
    lists the stored keys. *)
Class UnorderedMap := {
  bucket_order : gset Z → list Z;
  bucket_order_perm : ∀ ks, bucket_order ks ≡ₚ elements ks
}.

Section channel.
Context `{Collaborators} `{UnorderedMap}.

(** What the stage returns: the produced frames by layer, in the order in
    which the tick iterates over them. *)
Definition frame_map := list (Z * draw_frame).

(** ** Timecode listeners *)

(** The scoped token of [add_timecode_listener]: its deleter captures the id. *)
Record token := { token_id : Z }.

(** The listener table is guarded by a lock that is not held while a listener
    runs, so a listener may register listeners and drop tokens of the same
    channel.  A call of a listener yields its outcome and the registry
    operations it performed before it returned or threw. *)
Inductive table_op (L : Type) :=
  | op_add (l : L)
  | op_drop (t : token).
Arguments op_add {L} l.
Arguments op_drop {L} t.

#[warnings="-register-all"]
Inductive listener :=
  | Listener (call : frame_timecode → outcome unit * list (table_op listener)).

Definition listener_call (l : listener) :=
  match l with Listener call => call end.

(** ** Events *)

(** Every call that leaves the channel is recorded with its arguments and its
    outcome, in the order in which the calls are made. *)
Inductive event :=
  | ev_snapshot (fd : video_format_desc) (nb_samples : Z)
  | ev_predict (r : outcome frame_timecode)
  | ev_produce (fd : video_format_desc) (nb_samples : Z) (r : outcome frame_map)
  | ev_commit (r : outcome frame_timecode)
  | ev_listeners (tc : frame_timecode) (snapshot : list Z)
  | ev_listener (id : Z) (tc : frame_timecode) (r : outcome unit)
  | ev_mix (frames : frame_map) (fd : video_format_desc) (nb_samples : Z)
           (r : outcome const_frame)
  | ev_consume (tc : frame_timecode) (frame : const_frame)
               (fd : video_format_desc) (r : outcome unit)
  | ev_fanout (frames : frame_map)
  | ev_signal (layer : Z) (target : route_ptr) (frame : draw_frame)
              (r : outcome unit)
  | ev_publish (st : monitor_state) (r : outcome unit)
  | ev_logged (e : exn)
  | ev_registered (id : Z)
  | ev_erased (id : Z).

(** ** The channel *)

(** The fields of [video_channel::impl] under their names, followed by what
    the channel points to: the route objects, the sink of the tick callback
    and the record of events.  The mutexes and the thread handle carry no
    data. *)
Record impl := {
  state_ : monitor_state;
  index_ : Z;
  format_desc_ : video_format_desc;
  timecode_ : channel_timecode;
  graph_ : list string;
  output_ : output;
  mixer_ : mixer;
  stage_ : stage;
  audio_cadence_ : list Z;
  tick_ : monitor_state → sink → outcome unit * sink;
  routes_ : gmap Z weak_ptr;
  last_timecode_listener_id : Z;
  timecode_listeners_ : gmap Z listener;
  abort_request_ : bool;
  route_heap : list (core_route * nat);
  osc : sink;
  trace : list event
}.

Definition set_state_ (v : monitor_state) (w : impl) : impl :=
  {| state_ := v; index_ := index_ w; format_desc_ := format_desc_ w;
     timecode_ := timecode_ w; graph_ := graph_ w; output_ := output_ w;
     mixer_ := mixer_ w; stage_ := stage_ w; audio_cadence_ := audio_cadence_ w;
     tick_ := tick_ w; routes_ := routes_ w;
     last_timecode_listener_id := last_timecode_listener_id w;
     timecode_listeners_ := timecode_listeners_ w;
     abort_request_ := abort_request_ w; route_heap := route_heap w;
     osc := osc w; trace := trace w |}.

Definition set_format_desc_ (v : video_format_desc) (w : impl) : impl :=
  {| state_ := state_ w; index_ := index_ w; format_desc_ := v;
     timecode_ := timecode_ w; graph_ := graph_ w; output_ := output_ w;
     mixer_ := mixer_ w; stage_ := stage_ w; audio_cadence_ := audio_cadence_ w;
     tick_ := tick_ w; routes_ := routes_ w;
     last_timecode_listener_id := last_timecode_listener_id w;
     timecode_listeners_ := timecode_listeners_ w;
     abort_request_ := abort_request_ w; route_heap := route_heap w;
     osc := osc w; trace := trace w |}.

Definition set_timecode_ (v : channel_timecode) (w : impl) : impl :=
  {| state_ := state_ w; index_ := index_ w; format_desc_ := format_desc_ w;
     timecode_ := v; graph_ := graph_ w; output_ := output_ w;
     mixer_ := mixer_ w; stage_ := stage_ w; audio_cadence_ := audio_cadence_ w;
     tick_ := tick_ w; routes_ := routes_ w;
     last_timecode_listener_id := last_timecode_listener_id w;
     timecode_listeners_ := timecode_listeners_ w;
     abort_request_ := abort_request_ w; route_heap := route_heap w;
     osc := osc w; trace := trace w |}.

Definition set_graph_ (v : list string) (w : impl) : impl :=
  {| state_ := state_ w; index_ := index_ w; format_desc_ := format_desc_ w;
     timecode_ := timecode_ w; graph_ := v; output_ := output_ w;
     mixer_ := mixer_ w; stage_ := stage_ w; audio_cadence_ := audio_cadence_ w;
     tick_ := tick_ w; routes_ := routes_ w;
     last_timecode_listener_id := last_timecode_listener_id w;
     timecode_listeners_ := timecode_listeners_ w;
     abort_request_ := abort_request_ w; route_heap := route_heap w;
     osc := osc w; trace := trace w |}.

Definition set_output_ (v : output) (w : impl) : impl :=
  {| state_ := state_ w; index_ := index_ w; format_desc_ := format_desc_ w;
     timecode_ := timecode_ w; graph_ := graph_ w; output_ := v;
     mixer_ := mixer_ w; stage_ := stage_ w; audio_cadence_ := audio_cadence_ w;
     tick_ := tick_ w; routes_ := routes_ w;
     last_timecode_listener_id := last_timecode_listener_id w;
     timecode_listeners_ := timecode_listeners_ w;
     abort_request_ := abort_request_ w; route_heap := route_heap w;
     osc := osc w; trace := trace w |}.

Definition set_mixer_ (v : mixer) (w : impl) : impl :=
  {| state_ := state_ w; index_ := index_ w; format_desc_ := format_desc_ w;
     timecode_ := timecode_ w; graph_ := graph_ w; output_ := output_ w;
     mixer_ := v; stage_ := stage_ w; audio_cadence_ := audio_cadence_ w;
     tick_ := tick_ w; routes_ := routes_ w;
     last_timecode_listener_id := last_timecode_listener_id w;
     timecode_listeners_ := timecode_listeners_ w;
     abort_request_ := abort_request_ w; route_heap := route_heap w;
     osc := osc w; trace := trace w |}.

Definition set_stage_ (v : stage) (w : impl) : impl :=
  {| state_ := state_ w; index_ := index_ w; format_desc_ := format_desc_ w;
     timecode_ := timecode_ w; graph_ := graph_ w; output_ := output_ w;
     mixer_ := mixer_ w; stage_ := v; audio_cadence_ := audio_cadence_ w;
     tick_ := tick_ w; routes_ := routes_ w;
     last_timecode_listener_id := last_timecode_listener_id w;
     timecode_listeners_ := timecode_listeners_ w;
     abort_request_ := abort_request_ w; route_heap := route_heap w;
     osc := osc w; trace := trace w |}.

Definition set_audio_cadence_ (v : list Z) (w : impl) : impl :=
  {| state_ := state_ w; index_ := index_ w; format_desc_ := format_desc_ w;
     timecode_ := timecode_ w; graph_ := graph_ w; output_ := output_ w;
     mixer_ := mixer_ w; stage_ := stage_ w; audio_cadence_ := v;
     tick_ := tick_ w; routes_ := routes_ w;
     last_timecode_listener_id := last_timecode_listener_id w;
     timecode_listeners_ := timecode_listeners_ w;
     abort_request_ := abort_request_ w; route_heap := route_heap w;
     osc := osc w; trace := trace w |}.

Definition set_routes_ (v : gmap Z weak_ptr) (w : impl) : impl :=
  {| state_ := state_ w; index_ := index_ w; format_desc_ := format_desc_ w;
     timecode_ := timecode_ w; graph_ := graph_ w; output_ := output_ w;
     mixer_ := mixer_ w; stage_ := stage_ w; audio_cadence_ := audio_cadence_ w;
     tick_ := tick_ w; routes_ := v;
     last_timecode_listener_id := last_timecode_listener_id w;
     timecode_listeners_ := timecode_listeners_ w;
     abort_request_ := abort_request_ w; route_heap := route_heap w;
     osc := osc w; trace := trace w |}.

Definition set_last_timecode_listener_id (v : Z) (w : impl) : impl :=
  {| state_ := state_ w; index_ := index_ w; format_desc_ := format_desc_ w;
     timecode_ := timecode_ w; graph_ := graph_ w; output_ := output_ w;
     mixer_ := mixer_ w; stage_ := stage_ w; audio_cadence_ := audio_cadence_ w;
     tick_ := tick_ w; routes_ := routes_ w;
     last_timecode_listener_id := v;
     timecode_listeners_ := timecode_listeners_ w;
     abort_request_ := abort_request_ w; route_heap := route_heap w;
     osc := osc w; trace := trace w |}.

Definition set_timecode_listeners_ (v : gmap Z listener) (w : impl) : impl :=
  {| state_ := state_ w; index_ := index_ w; format_desc_ := format_desc_ w;
     timecode_ := timecode_ w; graph_ := graph_ w; output_ := output_ w;
     mixer_ := mixer_ w; stage_ := stage_ w; audio_cadence_ := audio_cadence_ w;
     tick_ := tick_ w; routes_ := routes_ w;
     last_timecode_listener_id := last_timecode_listener_id w;
     timecode_listeners_ := v;
     abort_request_ := abort_request_ w; route_heap := route_heap w;
     osc := osc w; trace := trace w |}.

Definition set_abort_request_ (v : bool) (w : impl) : impl :=
  {| state_ := state_ w; index_ := index_ w; format_desc_ := format_desc_ w;
     timecode_ := timecode_ w; graph_ := graph_ w; output_ := output_ w;
     mixer_ := mixer_ w; stage_ := stage_ w; audio_cadence_ := audio_cadence_ w;
     tick_ := tick_ w; routes_ := routes_ w;
     last_timecode_listener_id := last_timecode_listener_id w;
     timecode_listeners_ := timecode_listeners_ w;
     abort_request_ := v; route_heap := route_heap w;
     osc := osc w; trace := trace w |}.

Definition set_route_heap (v : list (core_route * nat)) (w : impl) : impl :=
  {| state_ := state_ w; index_ := index_ w; format_desc_ := format_desc_ w;
     timecode_ := timecode_ w; graph_ := graph_ w; output_ := output_ w;
     mixer_ := mixer_ w; stage_ := stage_ w; audio_cadence_ := audio_cadence_ w;
     tick_ := tick_ w; routes_ := routes_ w;
     last_timecode_listener_id := last_timecode_listener_id w;
     timecode_listeners_ := timecode_listeners_ w;
     abort_request_ := abort_request_ w; route_heap := v;
     osc := osc w; trace := trace w |}.

Definition set_osc (v : sink) (w : impl) : impl :=
  {| state_ := state_ w; index_ := index_ w; format_desc_ := format_desc_ w;
     timecode_ := timecode_ w; graph_ := graph_ w; output_ := output_ w;
     mixer_ := mixer_ w; stage_ := stage_ w; audio_cadence_ := audio_cadence_ w;
     tick_ := tick_ w; routes_ := routes_ w;
     last_timecode_listener_id := last_timecode_listener_id w;
     timecode_listeners_ := timecode_listeners_ w;
     abort_request_ := abort_request_ w; route_heap := route_heap w;
     osc := v; trace := trace w |}.

Definition set_trace (v : list event) (w : impl) : impl :=
  {| state_ := state_ w; index_ := index_ w; format_desc_ := format_desc_ w;
     timecode_ := timecode_ w; graph_ := graph_ w; output_ := output_ w;
     mixer_ := mixer_ w; stage_ := stage_ w; audio_cadence_ := audio_cadence_ w;
     tick_ := tick_ w; routes_ := routes_ w;
     last_timecode_listener_id := last_timecode_listener_id w;
     timecode_listeners_ := timecode_listeners_ w;
     abort_request_ := abort_request_ w; route_heap := route_heap w;
     osc := osc w; trace := v |}.

(** ** Running code on the channel *)

(** A piece of channel code runs from a state of the channel.  It returns,
    or throws, with the state it has reached; [None] stands for behaviour the
    language leaves undefined. *)
Definition M (A : Type) : Type := impl → option (outcome A * impl).

#[global] Instance M_ret : MRet M := λ A a w, Some (Returned a, w).

#[global] Instance M_bind : MBind M := λ A B k m w,
  match m w with
  | Some (Returned a, w') => k a w'
  | Some (Threw e, w') => Some (Threw e, w')
  | None => None
  end.

Definition throw {A} (e : exn) : M A := λ w, Some (Threw e, w).

Definition undefined {A} : M A := λ _, None.

Definition defined {A} (o : option A) : M A :=
  match o with Some a => mret a | None => undefined end.

Definition gets {A} (f : impl → A) : M A := λ w, Some (Returned (f w), w).

Definition modify (f : impl → impl) : M unit := λ w, Some (Returned tt, f w).

Definition emit (e : event) : M unit :=
  modify (λ w, set_trace (trace w ++ [e]) w).

Definition raise_of {A} (o : outcome A) : M A :=
  match o with Returned a => mret a | Threw e => throw e end.

(** [try { m } catch (...) { h }] *)
Definition try_catch {A} (m : M A) (h : exn → M A) : M A := λ w,
  match m w with
  | Some (Threw e, w') => h e w'
  | r => r
  end.

(** A call of a member of a collaborator: the object moves to its new state,
    the call is recorded with its outcome, and an exception propagates. *)
Definition invoke {S A} (get : impl → S) (set : S → impl → impl)
    (f : S → outcome A * S) (ev : outcome A → event) : M A :=
  s ← gets get;
  modify (set (f s).2);;
  emit (ev (f s).1);;
  raise_of (f s).1.

Fixpoint for_each {A} (f : A → M unit) (l : list A) : M unit :=
  match l with
  | [] => mret tt
  | x :: rest => f x;; for_each f rest
  end.

(** [graph_->set_value(name, timer.elapsed() * fps * 0.5)]: the value is a
    wall-clock measurement; the record keeps which series was written. *)
Definition graph_set_value (series : string) : M unit :=
  modify (λ w, set_graph_ (graph_ w ++ [series]) w).

(** [state_.clear()], [state_.insert_or_assign(key, v)] and
    [state_[key] = text]: what they make of the state is the monitor's
    business. *)
Definition state_clear : M unit :=
  modify (λ w, set_state_ (monitor_clear (state_ w)) w).

Definition state_insert_or_assign (key : string) (v : sub_state) : M unit :=
  modify (λ w, set_state_ (monitor_insert_or_assign key v (state_ w)) w).

Definition state_assign (key : string) (text : string) : M unit :=
  modify (λ w, set_state_ (monitor_assign key text (state_ w)) w).

(** ** Timecode listener registry *)

(** [std::unordered_map::insert] leaves an entry with the same key alone. *)
Definition umap_insert (k : Z) (l : listener) (m : gmap Z listener) :
    gmap Z listener :=
  match m !! k with
  | Some _ => m
  | None => <[k := l]> m
  end.

(** The entries in the order in which a range-for visits them. *)
Definition umap_entries (m : gmap Z listener) : list (Z * listener) :=
  omap (λ k, (k,.) <$> m !! k) (bucket_order (dom m)).

(** [last_timecode_listener_id++] is an increment of an [int64_t]. *)
Definition add_timecode_listener (l : listener) : M token :=
  listener_id ← gets last_timecode_listener_id;
  modify (set_last_timecode_listener_id (wrap64 (listener_id + 1)));;
  modify (λ w, set_timecode_listeners_
                 (umap_insert listener_id l (timecode_listeners_ w)) w);;
  emit (ev_registered listener_id);;
  mret {| token_id := listener_id |}.

(** The deleter of the token: [timecode_listeners_.erase(listener_id)]. *)
Definition drop_token (t : token) : M unit :=
  modify (λ w, set_timecode_listeners_
                 (delete (token_id t) (timecode_listeners_ w)) w);;
  emit (ev_erased (token_id t)).

Fixpoint run_ops (ops : list (table_op listener)) : M unit :=
  match ops with
  | [] => mret tt
  | op_add l :: rest => add_timecode_listener l;; run_ops rest
  | op_drop t :: rest => drop_token t;; run_ops rest
  end.

(** The body of the range-for in [invoke_timecode_listeners]. *)
Definition invoke_listener (timecode : frame_timecode) (entry : Z * listener) :
    M unit :=
  try_catch
    (let r := listener_call entry.2 timecode in
     run_ops r.2;;
     emit (ev_listener entry.1 timecode r.1);;
     raise_of r.1)
    (λ e, emit (ev_logged e)).

Definition invoke_timecode_listeners (timecode : frame_timecode) : M unit :=
  listeners ← gets (λ w, umap_entries (timecode_listeners_ w));
  emit (ev_listeners timecode listeners.*1);;
  for_each (invoke_listener timecode) listeners.

(** ** Route registry *)

Definition acquire (a : route_ptr) (heap : list (core_route * nat)) :
    list (core_route * nat) :=
  match heap !! a with
  | Some (r, n) => <[a := (r, S n)]> heap
  | None => heap
  end.

(** A holder outside the channel lets go of a strong reference. *)
Definition release (a : route_ptr) : M unit :=
  modify (λ w,
    match route_heap w !! a with
    | Some (r, S n) => set_route_heap (<[a := (r, n)]> (route_heap w)) w
    | _ => w
    end).

Definition route_name_of (channel_index index : Z) : string :=
  pretty channel_index +:+ (if decide (index = -1) then "" else "/" +:+ pretty index).

Definition route (index : Z) : M route_ptr :=
  (* routes_[index] inserts an empty weak_ptr when the key is new *)
  modify (λ w, match routes_ w !! index with
               | Some _ => w
               | None => set_routes_ (<[index := None]> (routes_ w)) w
               end);;
  weak ← gets (λ w, default None (routes_ w !! index));
  heap ← gets route_heap;
  match weak_lock heap weak with
  | Some (a, _) => modify (set_route_heap (acquire a heap));; mret a
  | None =>
      format_desc ← gets format_desc_;
      channel_index ← gets index_;
      let a := length heap in
      let r := {| route_format_desc := format_desc;
                  route_name := route_name_of channel_index index |} in
      modify (set_route_heap (heap ++ [(r, 1%nat)]));;
      modify (λ w, set_routes_ (<[index := Some a]> (routes_ w)) w);;
      mret a
  end.

(** [route->signal(frame)] on the route [r] that [lock()] has returned. *)
Definition signal (layer : Z) (a : route_ptr) (r : core_route)
    (frame : draw_frame) : M unit :=
  emit (ev_signal layer a frame (route_signal r frame));;
  raise_of (route_signal r frame).

(** [routes_.find(key)], [lock()], and the signal when both succeed. *)
Definition signal_route (key : Z) (frame : draw_frame) : M unit :=
  routes ← gets routes_;
  heap ← gets route_heap;
  match routes !! key with
  | Some weak =>
      match weak_lock heap weak with
      | Some (a, r) => signal key a r frame
      | None => mret tt
      end
  | None => mret tt
  end.

Fixpoint fan_out_loop (stage_frames : frame_map) (frames : list draw_frame) :
    M (list draw_frame) :=
  match stage_frames with
  | [] => mret frames
  | p :: rest =>
      signal_route p.1 (draw_frame_pop p.2);;
      fan_out_loop rest (frames ++ [p.2])
  end.

(** The block of the tick that holds [routes_mutex_]. *)
Definition fan_out (stage_frames : frame_map) : M unit :=
  emit (ev_fanout stage_frames);;
  frames ← fan_out_loop stage_frames [];
  signal_route (-1) (draw_frame_of frames).

(** ** Format *)

Definition get_video_format_desc : M video_format_desc := gets format_desc_.

Definition set_video_format_desc (format_desc : video_format_desc) : M unit :=
  modify (set_format_desc_ format_desc);;
  modify (λ w, set_audio_cadence_ (audio_cadence (format_desc_ w)) w);;
  s ← gets timecode_;
  modify (set_timecode_ (timecode_change_format format_desc s).2);;
  raise_of (timecode_change_format format_desc s).1;;
  s ← gets stage_;
  modify (set_stage_ (stage_clear s).2);;
  raise_of (stage_clear s).1.

(** ** The loop *)

(** [boost::range::rotate(v, std::end(v) - 1)]: the last element moves to the
    front.  On an empty vector [end(v) - 1] is not an iterator of it. *)
Definition rotate_last (v : list Z) : option (list Z) :=
  match reverse v with
  | [] => None
  | x :: r => Some (x :: reverse r)
  end.

(** The body of the [try] block. *)
Definition tick_body : M unit :=
  format_desc ← gets format_desc_;
  cadence ← gets audio_cadence_;
  rotated ← defined (rotate_last cadence);
  modify (set_audio_cadence_ rotated);;
  nb_samples ← defined (head rotated);
  emit (ev_snapshot format_desc nb_samples);;
  state_clear;;
  invoke timecode_ set_timecode_ (timecode_tick false) ev_predict;;
  stage_frames ← invoke stage_ set_stage_ (stage_call format_desc nb_samples)
                   (ev_produce format_desc nb_samples);
  graph_set_value "produce-time";;
  st ← gets (λ w, stage_state (stage_ w));
  state_insert_or_assign "stage" st;;
  timecode ← invoke timecode_ set_timecode_ (timecode_tick true) ev_commit;
  invoke_timecode_listeners timecode;;
  mix_samples ← defined (head (audio_cadence format_desc));
  mixed_frame ← invoke mixer_ set_mixer_
                  (mixer_call stage_frames format_desc mix_samples)
                  (ev_mix stage_frames format_desc mix_samples);
  graph_set_value "mix-time";;
  st ← gets (λ w, mixer_state (mixer_ w));
  state_insert_or_assign "mixer" st;;
  invoke output_ set_output_ (output_call timecode mixed_frame format_desc)
    (ev_consume timecode mixed_frame format_desc);;
  graph_set_value "consume-time";;
  fan_out stage_frames;;
  st ← gets (λ w, output_state (output_ w));
  state_insert_or_assign "output" st;;
  state_assign "timecode" (timecode_string timecode);;
  source ← gets (λ w, timecode_source_name (timecode_ w));
  state_assign "timecode/source" source;;
  st ← gets state_;
  tick ← gets tick_;
  invoke osc set_osc (tick st) (ev_publish st);;
  graph_set_value "osc-time".

(** One turn of [while (!abort_request_) { try { ... } catch (...) { log } }]. *)
Definition loop_iteration : M unit :=
  try_catch tick_body (λ e, emit (ev_logged e)).

(** The thread: at most [turns] turns, fewer when the abort flag is seen. *)
Fixpoint thread_main (turns : nat) : M unit :=
  match turns with
  | O => mret tt
  | S n =>
      abort ← gets abort_request_;
      if abort : bool then mret tt else loop_iteration;; thread_main n
  end.

(** The constructor: the cadence is copied from the format, the timecode is
    started, both registries are empty. *)
Definition make_impl (index : Z) (format_desc : video_format_desc)
    (tc : channel_timecode) (out : output) (mix : mixer) (stg : stage)
    (tick : monitor_state → sink → outcome unit * sink) (s : sink) : impl :=
  {| state_ := monitor_empty; index_ := index; format_desc_ := format_desc;
     timecode_ := timecode_start tc; graph_ := []; output_ := out;
     mixer_ := mix; stage_ := stg;
     audio_cadence_ := audio_cadence format_desc; tick_ := tick;
     routes_ := ∅; last_timecode_listener_id := 0;
     timecode_listeners_ := ∅; abort_request_ := false;
     route_heap := []; osc := s; trace := [] |}.

(** ** Stages of a tick *)

Inductive tick_stage :=
  | st_rotate | st_predict | st_produce | st_commit | st_listeners
  | st_mix | st_consume | st_routes | st_publish.

#[global] Instance tick_stage_eq_dec : EqDecision tick_stage.
Proof. solve_decision. Defined.

Definition all_stages : list tick_stage :=
  [st_rotate; st_predict; st_produce; st_commit; st_listeners;
   st_mix; st_consume; st_routes; st_publish].

(** The stage an event belongs to.  Log lines and the registry operations a
    listener performs are not stages of their own. *)
Definition stage_of (e : event) : option tick_stage :=
  match e with
  | ev_snapshot _ _ => Some st_rotate
  | ev_predict _ => Some st_predict
  | ev_produce _ _ _ => Some st_produce
  | ev_commit _ => Some st_commit
  | ev_listeners _ _ | ev_listener _ _ _ => Some st_listeners
  | ev_mix _ _ _ _ => Some st_mix
  | ev_consume _ _ _ _ => Some st_consume
  | ev_fanout _ | ev_signal _ _ _ _ => Some st_routes
  | ev_publish _ _ => Some st_publish
  | ev_logged _ | ev_registered _ | ev_erased _ => None
  end.

(** Adjacent repetitions collapse to one. *)
Fixpoint compress (l : list tick_stage) : list tick_stage :=
  match l with
  | [] => []
  | x :: rest =>
      match compress rest with
      | y :: rest' => if decide (x = y) then y :: rest' else x :: y :: rest'
      | [] => [x]
      end
  end.

Definition stages (evs : list event) : list tick_stage :=
  compress (omap stage_of evs).

(** The exception with which a recorded call left the tick body.  A listener
    that throws is caught by the handler around its own call. *)
Definition escapes (e : event) : option exn :=
  match e with
  | ev_predict (Threw x) | ev_produce _ _ (Threw x) | ev_commit (Threw x)
  | ev_mix _ _ _ (Threw x) | ev_consume _ _ _ (Threw x)
  | ev_signal _ _ _ (Threw x) | ev_publish _ (Threw x) => Some x
  | _ => None
  end.

(** ** What is read off a record of events *)

(** The sample counts of the snapshots, one per tick. *)
Definition samples (evs : list event) : list Z :=
  omap (λ e, match e with ev_snapshot _ nb => Some nb | _ => None end) evs.

(** The calls of listeners: who was called, with which timecode, and how the
    call ended. *)
Definition listener_calls (evs : list event) :
    list (Z * frame_timecode * outcome unit) :=
  omap (λ e, match e with
             | ev_listener id tc r => Some (id, tc, r)
             | _ => None
             end) evs.

(** The signals: the key under which the route was found, the route and the
    frame it was given. *)
Definition signals (evs : list event) : list (Z * route_ptr * draw_frame) :=
  omap (λ e, match e with
             | ev_signal key a f _ => Some (key, a, f)
             | _ => None
             end) evs.

(** The ids handed out by [add_timecode_listener]. *)
Definition registered (evs : list event) : list Z :=
  omap (λ e, match e with ev_registered id => Some id | _ => None end) evs.

(** What the loop over the listeners may record. *)
Definition in_listener_loop (e : event) : Prop :=
  match e with
  | ev_listener _ _ _ | ev_logged _ | ev_registered _ | ev_erased _ => True
  | _ => False
  end.

(** [i] is met before [j] in [l]. *)
Definition precedes (i j : Z) (l : list Z) : Prop :=
  ∃ l1 l2 l3, l = l1 ++ i :: l2 ++ j :: l3.

(** ** The route fan-out as a list of signals *)

(** The signal, if any, that a frame causes under a key. *)
Definition route_events (routes : gmap Z weak_ptr)
    (heap : list (core_route * nat)) (key : Z) (frame : draw_frame) :
    list event :=
  match routes !! key with
  | Some weak =>
      match weak_lock heap weak with
      | Some (a, r) => [ev_signal key a frame (route_signal r frame)]
      | None => []
      end
  | None => []
  end.

(** The signals of a whole fan-out when none of them throws. *)
Definition fan_out_events (routes : gmap Z weak_ptr)
    (heap : list (core_route * nat)) (stage_frames : frame_map) : list event :=
  concat ((λ p, route_events routes heap p.1 (draw_frame_pop p.2)) <$> stage_frames)
  ++ route_events routes heap (-1) (draw_frame_of stage_frames.*2).

(** A sequence of calls ends with the first that throws. *)
Fixpoint until_escape (evs : list event) : list event * option exn :=
  match evs with
  | [] => ([], None)
  | e :: rest =>
      match escapes e with
      | Some x => ([e], Some x)
      | None => let '(l, r) := until_escape rest in (e :: l, r)
      end
  end.

(** ** Vocabulary of the statements *)

(** Whatever way the code [m] ends, it leaves a state in which [I] holds
    when it starts in one. *)
Definition preserves {A} (I : impl → Prop) (m : M A) : Prop :=
  ∀ w r w', I w → m w = Some (r, w') → I w'.

(** The two states agree on everything but the listener table, the id
    counter and the record of events. *)
Definition registry_frame (w w' : impl) : Prop :=
  w' = set_trace (trace w')
         (set_timecode_listeners_ (timecode_listeners_ w')
            (set_last_timecode_listener_id (last_timecode_listener_id w') w)).

(** What a run of [invoke_timecode_listeners] over the table [m] records
    after the snapshot. *)
Definition listeners_ran (tc : frame_timecode) (m : gmap Z listener)
    (L : list event) : Prop :=
  Forall in_listener_loop L ∧
  listener_calls L = (λ p, (p.1, tc, (listener_call p.2 tc).1)) <$> umap_entries m.

(** How a block ends whose calls ended with [x]. *)
Definition result_of (x : option exn) : outcome unit :=
  match x with None => Returned tt | Some e => Threw e end.

(** The events up to the end of the listener loop, when nothing has thrown
    out of the tick so far. *)
Definition upto_listeners (w : impl) (nb : Z) (tcp : frame_timecode)
    (frames : frame_map) (tc : frame_timecode) (L : list event) : list event :=
  [ev_predict (Returned tcp);
   ev_produce (format_desc_ w) nb (Returned frames);
   ev_commit (Returned tc);
   ev_listeners tc (umap_entries (timecode_listeners_ w)).*1] ++ L.

(** What a tick that starts in [w] with sample count [nb] records after the
    snapshot, and how it ends: one case for each call that can throw, and the
    run to the end. *)
Inductive tick_run (w : impl) (nb : Z) : outcome unit → list event → Prop :=
  | run_predict_threw e :
      tick_run w nb (Threw e) [ev_predict (Threw e)]
  | run_produce_threw tcp e :
      (stage_call (format_desc_ w) nb (stage_ w)).1 = Threw e →
      tick_run w nb (Threw e)
        [ev_predict (Returned tcp); ev_produce (format_desc_ w) nb (Threw e)]
  | run_commit_threw tcp frames e :
      (stage_call (format_desc_ w) nb (stage_ w)).1 = Returned frames →
      tick_run w nb (Threw e)
        [ev_predict (Returned tcp);
         ev_produce (format_desc_ w) nb (Returned frames);
         ev_commit (Threw e)]
  | run_mix_threw tcp frames tc L n0 e :
      (stage_call (format_desc_ w) nb (stage_ w)).1 = Returned frames →
      listeners_ran tc (timecode_listeners_ w) L →
      head (audio_cadence (format_desc_ w)) = Some n0 →
      tick_run w nb (Threw e)
        (upto_listeners w nb tcp frames tc L ++
         [ev_mix frames (format_desc_ w) n0 (Threw e)])
  | run_consume_threw tcp frames tc L n0 mixed e :
      (stage_call (format_desc_ w) nb (stage_ w)).1 = Returned frames →
      listeners_ran tc (timecode_listeners_ w) L →
      head (audio_cadence (format_desc_ w)) = Some n0 →
      tick_run w nb (Threw e)
        (upto_listeners w nb tcp frames tc L ++
         [ev_mix frames (format_desc_ w) n0 (Returned mixed);
          ev_consume tc mixed (format_desc_ w) (Threw e)])
  | run_signal_threw tcp frames tc L n0 mixed S e :
      (stage_call (format_desc_ w) nb (stage_ w)).1 = Returned frames →
      listeners_ran tc (timecode_listeners_ w) L →
      head (audio_cadence (format_desc_ w)) = Some n0 →
      until_escape (fan_out_events (routes_ w) (route_heap w) frames)
        = (S, Some e) →
      tick_run w nb (Threw e)
        (upto_listeners w nb tcp frames tc L ++
         [ev_mix frames (format_desc_ w) n0 (Returned mixed);
          ev_consume tc mixed (format_desc_ w) (Returned tt);
          ev_fanout frames] ++ S)
  | run_publish tcp frames tc L n0 mixed S st r :
      (stage_call (format_desc_ w) nb (stage_ w)).1 = Returned frames →
      listeners_ran tc (timecode_listeners_ w) L →
      head (audio_cadence (format_desc_ w)) = Some n0 →
      until_escape (fan_out_events (routes_ w) (route_heap w) frames)
        = (S, None) →
      tick_run w nb r
        (upto_listeners w nb tcp frames tc L ++
         [ev_mix frames (format_desc_ w) n0 (Returned mixed);
          ev_consume tc mixed (format_desc_ w) (Returned tt);
          ev_fanout frames] ++ S ++ [ev_publish st r]).

(** What the loop over the produced frames may record. *)
Definition is_signal (e : event) : Prop :=
  match e with ev_signal _ _ _ _ => True | _ => False end.

(** The cadence vector after [n] ticks, and the sample counts of these
    ticks. *)
Fixpoint cadence_after (n : nat) (c : list Z) : list Z :=
  match n with
  | O => c
  | S n => cadence_after n (default c (rotate_last c))
  end.

Fixpoint tick_samples (n : nat) (c : list Z) : list Z :=
  match n with
  | O => []
  | S n =>
      let rotated := default c (rotate_last c) in
      option_list (head rotated) ++ tick_samples n rotated
  end.

(** The sum of a list of sample counts. *)
Definition sum_Z (l : list Z) : Z := foldr Z.add 0 l.

(** The index in [all_stages] of the stage at which a tick ended. *)
Definition ended_at (s : tick_stage) (k : nat) : Prop := all_stages !! k = Some s.

(** No route is registered under two keys. *)
Definition routes_distinct (routes : gmap Z weak_ptr) : Prop :=
  ∀ i j a, routes !! i = Some (Some a) → routes !! j = Some (Some a) → i = j.

(** The route [r] with identity [a] is registered under [key] and an owner
    of it is left. *)
Definition alive_route (w : impl) (key : Z) (a : route_ptr) (r : core_route) :
    Prop :=
  ∃ weak, routes_ w !! key = Some weak ∧ weak_lock (route_heap w) weak = Some (a, r).

(** The signals of the loop over the produced frames. *)
Definition layer_events (routes : gmap Z weak_ptr)
    (heap : list (core_route * nat)) (stage_frames : frame_map) : list event :=
  concat ((λ p, route_events routes heap p.1 (draw_frame_pop p.2)) <$> stage_frames).

(** The route that [route(index)] makes when none is alive. *)
Definition new_route (w : impl) (index : Z) : core_route :=
  {| route_format_desc := format_desc_ w;
     route_name := route_name_of (index_ w) index |}.

(** What can be done to a channel from outside, and a turn of its loop. *)
Inductive api_call :=
  | call_add_timecode_listener (l : listener)
  | call_drop_token (t : token)
  | call_route (index : Z)
  | call_release (a : route_ptr)
  | call_video_format_desc (format_desc : video_format_desc)
  | call_loop_iteration
  | call_abort.

Definition api (c : api_call) : M unit :=
  match c with
  | call_add_timecode_listener l => add_timecode_listener l;; mret tt
  | call_drop_token t => drop_token t
  | call_route index => route index;; mret tt
  | call_release a => release a
  | call_video_format_desc format_desc => set_video_format_desc format_desc
  | call_loop_iteration => loop_iteration
  | call_abort => modify (set_abort_request_ true)
  end.

Inductive reachable : impl → Prop :=
  | reachable_make index format_desc tc out mix stg tick s :
      reachable (make_impl index format_desc tc out mix stg tick s)
  | reachable_call w c r w' :
      reachable w → api c w = Some (r, w') → reachable w'.

(** The ids handed out so far are 0, 1, 2, ... as an [int64_t] holds them,
    the counter is the next of them, and every key of the table is one of
    them. *)
Definition registry_ok (tr : list event) (last : Z) (tbl : gmap Z listener) :
    Prop :=
  registered tr = (λ k, wrap64 (Z.of_nat k)) <$> seq 0 (length (registered tr)) ∧
  last = wrap64 (Z.of_nat (length (registered tr))) ∧
  ∀ k, is_Some (tbl !! k) → k ∈ registered tr.

(** No two keys share a route, and every weak reference names a control
    block that exists. *)
Definition routes_ok (routes : gmap Z weak_ptr) (heap : list (core_route * nat)) :
    Prop :=
  routes_distinct routes ∧
  ∀ i a, routes !! i = Some (Some a) → (a < length heap)%nat.

Definition channel_inv (w : impl) : Prop :=
  registry_ok (trace w) (last_timecode_listener_id w) (timecode_listeners_ w) ∧
  routes_ok (routes_ w) (route_heap w).

(** The events that hand out an id. *)
Definition is_registered (e : event) : bool :=
  match e with ev_registered _ => true | _ => false end.

(** ** The rest of the interface *)

(** [print()]: the label of the channel in log lines, read through the
    getter of the format. *)
Definition print : M string :=
  format_desc ← get_video_format_desc;
  channel_index ← gets index_;
  mret ("video_channel[" +:+ pretty channel_index +:+ "|"
        +:+ name format_desc +:+ "]").

(** [index()] *)
Definition index : M Z := gets index_.

(** ** Vocabulary of the further statements *)

(** What a turn of the loop leaves alone. *)
Definition loop_frame (w w' : impl) : Prop :=
  index_ w' = index_ w ∧ format_desc_ w' = format_desc_ w ∧
  tick_ w' = tick_ w ∧ routes_ w' = routes_ w ∧
  route_heap w' = route_heap w ∧ abort_request_ w' = abort_request_ w.

(** The owned cadence vector is the cadence of the stored format after some
    number of rotations. *)
Definition cadence_in_phase (w : impl) : Prop :=
  ∃ k, audio_cadence_ w = cadence_after k (audio_cadence (format_desc_ w)).

(** The id counter and the table after one registry operation, as
    [add_timecode_listener] and the deleter of a token change them. *)
Definition apply_op (reg : Z * gmap Z listener) (op : table_op listener) :
    Z * gmap Z listener :=
  match op with
  | op_add l => (wrap64 (reg.1 + 1), umap_insert reg.1 l reg.2)
  | op_drop t => (reg.1, delete (token_id t) reg.2)
  end.

(** The registry operations of one invocation of the listeners in
    [entries], in the order in which they are performed. *)
Definition invocation_ops (tc : frame_timecode) (entries : list (Z * listener)) :
    list (table_op listener) :=
  concat ((λ p, (listener_call p.2 tc).2) <$> entries).

(** Every route that is registered under a key carries the name that
    [route] gives to that key. *)
Definition routes_named (w : impl) : Prop :=
  ∀ key a, routes_ w !! key = Some (Some a) →
    ∃ r n, route_heap w !! a = Some (r, n) ∧
           route_name r = route_name_of (index_ w) key.

(** The id counter and the listener table of a channel. *)
Definition registry_of (w : impl) : Z * gmap Z listener :=
  (last_timecode_listener_id w, timecode_listeners_ w).

(** The monitor state a tick hands to the callback: the state of before is
    cleared, then written to five times, with what the stage, the mixer and
    the output report after their calls, the text of the committed timecode
    and the name of the timecode's source. *)
Definition published_state (st : monitor_state) (stg : stage) (mx : mixer)
    (out : output) (tc : frame_timecode) (tcs : channel_timecode) :
    monitor_state :=
  monitor_assign "timecode/source" (timecode_source_name tcs)
    (monitor_assign "timecode" (timecode_string tc)
       (monitor_insert_or_assign "output" (output_state out)
          (monitor_insert_or_assign "mixer" (mixer_state mx)
             (monitor_insert_or_assign "stage" (stage_state stg)
                (monitor_clear st))))).

End channel.

(** * A studio to run the channel in

    Concrete collaborators: frames are trees, the timecode is a frame
    counter, the stage hands out the layers it holds, the mixer follows a
    script that says which of its calls throw, the output counts the frames
    it has taken, the monitor state lists what was written to it. *)

Module Studio.

#[warnings="-register-all"]
Inductive frame :=
  | leaf (n : Z)
  | popped (f : frame)
  | group (fs : list frame).

#[local] Instance studio : Collaborators := {|
  draw_frame := frame;
  const_frame := list (Z * frame) * Z;
  frame_timecode := Z;
  sub_state := nat;
  draw_frame_pop := popped;
  draw_frame_of := group;
  channel_timecode := Z;
  timecode_start := λ c, c;
  timecode_tick := λ commit c, (Returned (c + 1), if commit : bool then c + 1 else c);
  timecode_change_format := λ _ c, (Returned tt, c);
  timecode_source_name := λ _, "system";
  timecode_string := λ _, "00:00:00:00";
  stage := list (Z * frame);
  stage_call := λ _ _ layers, (Returned layers, layers);
  stage_state := length;
  stage_clear := λ _, (Returned tt, []);
  mixer := list bool;
  mixer_call := λ frames _ nb script,
    match script with
    | true :: rest => (Threw "mixer", rest)
    | false :: rest => (Returned (frames, nb), rest)
    | [] => (Returned (frames, nb), [])
    end;
  mixer_state := length;
  output := nat;
  output_call := λ _ _ _ n, (Returned tt, S n);
  output_state := λ n, n;
  monitor_state := list (string * (nat + string));
  monitor_empty := [];
  monitor_clear := λ _, [];
  monitor_insert_or_assign := λ key v st, st ++ [(key, inl v)];
  monitor_assign := λ key text st, st ++ [(key, inr text)];
  route_signal := λ _ _, Returned tt;
  sink := nat
|}.

(** A table that iterates in ascending order of the keys, and one that
    iterates in descending order, which is what a chained hash table that
    links every new node at the front of its list does. *)
Definition ascending : UnorderedMap := {|
  bucket_order := λ ks, merge_sort Z.le (elements ks);
  bucket_order_perm := λ ks, merge_sort_Permutation Z.le (elements ks)
|}.

Definition descending : UnorderedMap := {|
  bucket_order := λ ks, reverse (merge_sort Z.le (elements ks));
  bucket_order_perm := λ ks,
    perm_trans (reverse_Permutation (merge_sort Z.le (elements ks)))
      (merge_sort_Permutation Z.le (elements ks))
|}.

Definition ntsc : video_format_desc :=
  {| name := "1080i5994"; width := 1920; height := 1080;
     fps_num := 30000; fps_den := 1001; audio_sample_rate := 48000;
     audio_cadence := [1602; 1601; 1602; 1601; 1602] |}.

Definition pal : video_format_desc :=
  {| name := "1080i5000"; width := 1920; height := 1080;
     fps_num := 25; fps_den := 1; audio_sample_rate := 48000;
     audio_cadence := [1920] |}.

Definition osc_tick : monitor_state → nat → outcome unit * nat :=
  λ _ n, (Returned tt, S n).

(** A channel on NTSC with the layers [layers] and the mixer script
    [script]. *)
Definition channel (layers : list (Z * frame)) (script : list bool) : impl :=
  make_impl 1 ntsc 0 0%nat script layers osc_tick 0%nat.

Definition quiet : listener := Listener (λ _, (Returned tt, [])).
Definition faulty : listener := Listener (λ _, (Threw "listener", [])).

(** The state a call leaves the channel in. *)
Definition after `{UnorderedMap} (c : api_call) (w : impl) : impl :=
  match api c w with
  | Some (_, w') => w'
  | None => w
  end.

Section in_order.
#[local] Existing Instance ascending.

(** Two layers, no listener, no route. *)
Definition two_layers : impl := channel [(0, leaf 10); (1, leaf 11)] [].

(** The same channel after one turn and after two turns of the loop. *)
Definition one_turn : impl := after call_loop_iteration two_layers.
Definition two_turns : impl := after call_loop_iteration one_turn.

(** A channel whose mixer throws in its first call, after the tick in which
    it does. *)
Definition bad_mixer : impl := channel [(0, leaf 10)] [true].
Definition bad_mixer_failed : impl :=
  match tick_body bad_mixer with
  | Some (_, w') => w'
  | None => bad_mixer
  end.

(** Routes for layer 0 and for the whole channel. *)
Definition two_routes : impl :=
  after (call_route (-1)) (after (call_route 0) two_layers).

(** Two listeners, the first of which throws, and the state one tick later. *)
Definition two_listeners : impl :=
  after (call_add_timecode_listener quiet)
    (after (call_add_timecode_listener faulty) two_layers).
Definition two_listeners_ticked : impl := after call_loop_iteration two_listeners.

(** The channel after a change to PAL, and one tick later. *)
Definition on_pal : impl := after (call_video_format_desc pal) two_layers.
Definition on_pal_ticked : impl := after call_loop_iteration on_pal.

(** Two listeners and two routes, and the state one tick later. *)
Definition on_air : impl :=
  after (call_route (-1)) (after (call_route 0) two_listeners).
Definition on_air_ticked : impl := after call_loop_iteration on_air.

End in_order.

End Studio.

(** * Facts about the channel *)

Section channel_facts.
Context `{Collaborators} `{UnorderedMap}.

(** ** Running: equations *)

(** Reads the fields of a state that is written with the setters. *)
Ltac fields :=
  cbn [state_ index_ format_desc_ timecode_ graph_ output_ mixer_ stage_
       audio_cadence_ tick_ routes_ last_timecode_listener_id
       timecode_listeners_ abort_request_ route_heap osc trace
       set_state_ set_format_desc_ set_timecode_ set_graph_ set_output_
       set_mixer_ set_stage_ set_audio_cadence_ set_routes_
       set_last_timecode_listener_id set_timecode_listeners_
       set_abort_request_ set_route_heap set_osc set_trace] in *.

(** [simpl] shows [omap] on lists as its instance; this puts it back. *)
Ltac refold_omap :=
  repeat match goal with
         | |- context [list_omap ?A ?B ?f ?l] =>
             change (list_omap A B f l) with (@omap list _ A B f l)
         end.

Lemma bind_run {A B} (m : M A) (k : A → M B) w :
  (m ≫= k) w = match m w with
               | Some (Returned a, w') => k a w'
               | Some (Threw e, w') => Some (Threw e, w')
               | None => None
               end.
Proof. reflexivity. Qed.

Lemma raise_of_run {A} (o : outcome A) w : raise_of o w = Some (o, w).
Proof. by destruct o. Qed.

Lemma invoke_run {S A} (get : impl → S) (set : S → impl → impl)
    (f : S → outcome A * S) (ev : outcome A → event) w :
  invoke get set f ev w =
  Some ((f (get w)).1,
        set_trace (trace (set (f (get w)).2 w) ++ [ev (f (get w)).1])
          (set (f (get w)).2 w)).
Proof.
  unfold invoke. repeat (rewrite bind_run; simpl). apply raise_of_run.
Qed.

Lemma for_each_cons {A} (f : A → M unit) x l w :
  for_each f (x :: l) w = (f x;; for_each f l) w.
Proof. reflexivity. Qed.

(** ** Properties kept by a piece of code *)

Lemma preserves_ret {A} I (a : A) : preserves I (mret a).
Proof. intros w r w' HI [= _ <-]. done. Qed.

Lemma preserves_throw {A} I e : preserves I (throw e : M A).
Proof. intros w r w' HI [= _ <-]. done. Qed.

Lemma preserves_undefined {A} I : preserves I (undefined : M A).
Proof. intros w r w' HI [=]. Qed.

Lemma preserves_defined {A} I (o : option A) : preserves I (defined o).
Proof. destruct o; [apply preserves_ret | apply preserves_undefined]. Qed.

Lemma preserves_raise_of {A} I (o : outcome A) : preserves I (raise_of o).
Proof. destruct o; [apply preserves_ret | apply preserves_throw]. Qed.

Lemma preserves_gets {A} I (f : impl → A) : preserves I (gets f).
Proof. intros w r w' HI [= _ <-]. done. Qed.

Lemma preserves_modify I f :
  (∀ w, I w → I (f w)) → preserves I (modify f).
Proof. intros Hf w r w' HI [= _ <-]. auto. Qed.

Lemma preserves_bind {A B} I (m : M A) (k : A → M B) :
  preserves I m → (∀ a, preserves I (k a)) → preserves I (m ≫= k).
Proof.
  intros Hm Hk w r w' HI. rewrite bind_run.
  destruct (m w) as [[[a|e] w1]|] eqn:Hrun; [| |done].
  - apply (Hk a). eapply Hm; eauto.
  - intros [= _ <-]. eapply Hm; eauto.
Qed.

Lemma preserves_try_catch {A} I (m : M A) h :
  preserves I m → (∀ e, preserves I (h e)) → preserves I (try_catch m h).
Proof.
  intros Hm Hh w r w' HI. unfold try_catch.
  destruct (m w) as [[[a|e] w1]|] eqn:Hrun; [| |done].
  - intros [= _ <-]. eapply Hm; eauto.
  - apply (Hh e). eapply Hm; eauto.
Qed.

Lemma preserves_for_each {A} I (f : A → M unit) l :
  (∀ x, preserves I (f x)) → preserves I (for_each f l).
Proof.
  intros Hf. induction l as [|x l IH]; [apply preserves_ret|].
  apply preserves_bind; auto.
Qed.

(** ** The listener registry: how it runs *)

Lemma registry_frame_refl w : registry_frame w w.
Proof. by destruct w. Qed.

Lemma registry_frame_trans w1 w2 w3 :
  registry_frame w1 w2 → registry_frame w2 w3 → registry_frame w1 w3.
Proof.
  unfold registry_frame. intros H12 H23. rewrite H23 at 1. rewrite H12 at 1.
  reflexivity.
Qed.

Lemma add_timecode_listener_run l w :
  add_timecode_listener l w =
  Some (Returned {| token_id := last_timecode_listener_id w |},
        set_trace (trace w ++ [ev_registered (last_timecode_listener_id w)])
          (set_timecode_listeners_
             (umap_insert (last_timecode_listener_id w) l (timecode_listeners_ w))
             (set_last_timecode_listener_id
                (wrap64 (last_timecode_listener_id w + 1)) w))).
Proof. reflexivity. Qed.

Lemma drop_token_run t w :
  drop_token t w =
  Some (Returned tt,
        set_trace (trace w ++ [ev_erased (token_id t)])
          (set_timecode_listeners_
             (delete (token_id t) (timecode_listeners_ w)) w)).
Proof. reflexivity. Qed.

Lemma run_ops_run ops w :
  ∃ w' L, run_ops ops w = Some (Returned tt, w') ∧ registry_frame w w' ∧
          trace w' = trace w ++ L ∧ Forall in_listener_loop L ∧
          listener_calls L = [].
Proof.
  revert w. induction ops as [|[l|t] ops IH]; intros w.
  - exists w, []. rewrite app_nil_r. split_and!; auto using registry_frame_refl.
  - simpl. rewrite bind_run, add_timecode_listener_run.
    match goal with |- context [run_ops ops ?w1] =>
      destruct (IH w1) as (w' & L & -> & Hfr & Htr & HL & Hcalls) end.
    exists w', (ev_registered (last_timecode_listener_id w) :: L).
    split_and!; [done | | | by constructor | done].
    + eapply registry_frame_trans; [|exact Hfr]. by destruct w.
    + rewrite Htr. simpl. by rewrite <- app_assoc.
  - simpl. rewrite bind_run, drop_token_run.
    match goal with |- context [run_ops ops ?w1] =>
      destruct (IH w1) as (w' & L & -> & Hfr & Htr & HL & Hcalls) end.
    exists w', (ev_erased (token_id t) :: L).
    split_and!; [done | | | by constructor | done].
    + eapply registry_frame_trans; [|exact Hfr]. by destruct w.
    + rewrite Htr. simpl. by rewrite <- app_assoc.
Qed.

Lemma invoke_listener_run tc entry w :
  ∃ w' L, invoke_listener tc entry w = Some (Returned tt, w') ∧
          registry_frame w w' ∧ trace w' = trace w ++ L ∧
          Forall in_listener_loop L ∧
          listener_calls L = [(entry.1, tc, (listener_call entry.2 tc).1)].
Proof.
  unfold invoke_listener, try_catch.
  destruct (run_ops_run (listener_call entry.2 tc).2 w)
    as (w1 & L & Hrun & Hfr & Htr & HL & Hcalls).
  rewrite bind_run, Hrun. rewrite bind_run. simpl.
  destruct (listener_call entry.2 tc).1 as [[]|e] eqn:Hcall; simpl.
  - eexists _, (L ++ [ev_listener entry.1 tc (Returned ())]).
    split_and!; [done | | | |].
    + eapply registry_frame_trans; [exact Hfr|]. by destruct w1.
    + simpl. rewrite Htr. by rewrite <- app_assoc.
    + apply Forall_app. split; [done|]. by repeat constructor.
    + unfold listener_calls in *. rewrite omap_app, Hcalls. done.
  - eexists _, (L ++ [ev_listener entry.1 tc (Threw e); ev_logged e]).
    split_and!; [done | | | |].
    + eapply registry_frame_trans; [exact Hfr|]. by destruct w1.
    + simpl. rewrite Htr. by rewrite <- !app_assoc.
    + apply Forall_app. split; [done|]. by repeat constructor.
    + unfold listener_calls in *. rewrite omap_app, Hcalls. done.
Qed.

Lemma for_each_listeners_run tc entries w :
  ∃ w' L, for_each (invoke_listener tc) entries w = Some (Returned tt, w') ∧
          registry_frame w w' ∧ trace w' = trace w ++ L ∧
          Forall in_listener_loop L ∧
          listener_calls L =
            (λ p, (p.1, tc, (listener_call p.2 tc).1)) <$> entries.
Proof.
  revert w. induction entries as [|entry entries IH]; intros w.
  - exists w, []. rewrite app_nil_r. split_and!; auto using registry_frame_refl.
  - rewrite for_each_cons, bind_run.
    destruct (invoke_listener_run tc entry w)
      as (w1 & L1 & -> & Hfr1 & Htr1 & HL1 & Hcalls1).
    destruct (IH w1) as (w2 & L2 & -> & Hfr2 & Htr2 & HL2 & Hcalls2).
    exists w2, (L1 ++ L2). split_and!; [done | | | |].
    + eauto using registry_frame_trans.
    + by rewrite Htr2, Htr1, <- app_assoc.
    + by apply Forall_app.
    + unfold listener_calls in *. by rewrite omap_app, Hcalls1, Hcalls2.
Qed.

Lemma invoke_timecode_listeners_run tc w :
  ∃ w' L, invoke_timecode_listeners tc w = Some (Returned tt, w') ∧
          registry_frame w w' ∧
          trace w' = trace w ++
            ev_listeners tc (umap_entries (timecode_listeners_ w)).*1 :: L ∧
          listeners_ran tc (timecode_listeners_ w) L.
Proof.
  unfold invoke_timecode_listeners. repeat (rewrite bind_run; simpl).
  match goal with |- context [for_each _ ?es ?w1] =>
    destruct (for_each_listeners_run tc es w1)
      as (w' & L & -> & Hfr & Htr & HL & Hcalls) end.
  exists w', L. split_and!; [done | | | done].
  - eapply registry_frame_trans; [|exact Hfr]. by destruct w.
  - rewrite Htr. simpl. by rewrite <- app_assoc.
Qed.

(** ** The route fan-out: how it runs *)

Lemma set_trace_same w : set_trace (trace w) w = w.
Proof. by destruct w. Qed.

Lemma set_trace_twice t1 t2 w : set_trace t2 (set_trace t1 w) = set_trace t2 w.
Proof. reflexivity. Qed.

Lemma until_escape_app l1 l2 :
  until_escape (l1 ++ l2) =
  match until_escape l1 with
  | (l, Some x) => (l, Some x)
  | (l, None) => (l ++ (until_escape l2).1, (until_escape l2).2)
  end.
Proof.
  induction l1 as [|e l1 IH]; simpl.
  - by destruct (until_escape l2).
  - destruct (escapes e); [done|]. rewrite IH.
    destruct (until_escape l1) as [l [x|]]; [done|].
    by destruct (until_escape l2).
Qed.

Lemma until_escape_none evs l :
  until_escape evs = (l, None) → l = evs ∧ Forall (λ e, escapes e = None) evs.
Proof.
  revert l. induction evs as [|e evs IH]; intros l; simpl.
  - intros [= <-]. auto.
  - destruct (escapes e) eqn:He; [done|].
    destruct (until_escape evs) as [l' x]. intros [= <- ->].
    destruct (IH l' eq_refl) as [-> Hall]. auto.
Qed.

Lemma until_escape_some evs l x :
  until_escape evs = (l, Some x) →
  ∃ l' e rest, l = l' ++ [e] ∧ evs = l' ++ e :: rest ∧ escapes e = Some x ∧
               Forall (λ e, escapes e = None) l'.
Proof.
  revert l. induction evs as [|e evs IH]; intros l; simpl; [done|].
  destruct (escapes e) eqn:He.
  - intros [= <- <-]. exists [], e, evs. auto.
  - destruct (until_escape evs) as [l' y]. intros [= <- ->].
    destruct (IH l' eq_refl) as (l1 & e1 & rest & -> & -> & Hx & Hall).
    exists (e :: l1), e1, rest. auto.
Qed.

Lemma signal_route_run key frame w :
  signal_route key frame w =
  let evs := route_events (routes_ w) (route_heap w) key frame in
  Some (result_of (until_escape evs).2, set_trace (trace w ++ evs) w).
Proof.
  unfold signal_route, route_events. repeat (rewrite bind_run; simpl).
  destruct (routes_ w !! key) as [weak|]; simpl;
    [|by rewrite app_nil_r, set_trace_same].
  destruct (weak_lock (route_heap w) weak) as [[a r]|]; simpl;
    [|by rewrite app_nil_r, set_trace_same].
  unfold signal. rewrite bind_run. simpl. rewrite raise_of_run.
  by destruct (route_signal r frame) as [[]|e].
Qed.

Lemma route_events_escape routes heap key frame :
  (until_escape (route_events routes heap key frame)).1 =
  route_events routes heap key frame.
Proof.
  unfold route_events. destruct (routes !! key) as [weak|]; [|done].
  destruct (weak_lock heap weak) as [[a r]|]; [|done].
  simpl. by destruct (route_signal r frame).
Qed.

Lemma fan_out_loop_run stage_frames frames w :
  fan_out_loop stage_frames frames w =
  let evs := concat ((λ p, route_events (routes_ w) (route_heap w) p.1
                             (draw_frame_pop p.2)) <$> stage_frames) in
  Some (match (until_escape evs).2 with
        | None => Returned (frames ++ stage_frames.*2)
        | Some e => Threw e
        end,
        set_trace (trace w ++ (until_escape evs).1) w).
Proof.
  revert frames w. induction stage_frames as [|p rest IH]; intros frames w.
  - simpl. by rewrite !app_nil_r, set_trace_same.
  - cbn [fan_out_loop]. rewrite bind_run, signal_route_run.
    cbn [fmap list_fmap concat]. cbv zeta. rewrite until_escape_app.
    pose proof (route_events_escape (routes_ w) (route_heap w) p.1
                  (draw_frame_pop p.2)) as Hfst.
    destruct (until_escape (route_events (routes_ w) (route_heap w) p.1
                              (draw_frame_pop p.2))) as [l [x|]];
      simpl in Hfst; subst l; simpl; [done|].
    rewrite IH. simpl. rewrite set_trace_twice.
    by rewrite <- !app_assoc.
Qed.

Lemma fan_out_run stage_frames w :
  fan_out stage_frames w =
  let r := until_escape (fan_out_events (routes_ w) (route_heap w) stage_frames) in
  Some (result_of r.2, set_trace (trace w ++ ev_fanout stage_frames :: r.1) w).
Proof.
  unfold fan_out, fan_out_events. repeat (rewrite bind_run; simpl).
  rewrite fan_out_loop_run. simpl. rewrite until_escape_app.
  destruct (until_escape (concat _)) as [l [x|]]; simpl.
  - by rewrite set_trace_twice, <- app_assoc.
  - rewrite signal_route_run. simpl. rewrite route_events_escape.
    by rewrite set_trace_twice, <- !app_assoc.
Qed.

(** ** The ways a tick can go *)

Lemma rotate_last_some v rot :
  rotate_last v = Some rot → ∃ x init, v = init ++ [x] ∧ rot = x :: init.
Proof.
  unfold rotate_last. destruct (reverse v) as [|x r] eqn:Hrev; [done|].
  intros [= <-]. exists x, (reverse r). split; [|done].
  rewrite <- (reverse_involutive v), Hrev. by rewrite reverse_cons.
Qed.

Lemma rotate_last_snoc init x : rotate_last (init ++ [x]) = Some (x :: init).
Proof.
  unfold rotate_last. rewrite reverse_app. simpl.
  by rewrite reverse_involutive.
Qed.

Lemma rotate_last_none v : rotate_last v = None → v = [].
Proof.
  unfold rotate_last. destruct (reverse v) as [|x r] eqn:Hrev; [|done].
  intros _. rewrite <- (reverse_involutive v), Hrev. done.
Qed.

#[local] Arguments invoke_timecode_listeners : simpl never.
#[local] Arguments fan_out : simpl never.

Lemma tick_body_spec w :
  match tick_body w with
  | Some (r, w') =>
      ∃ rot nb new,
        rotate_last (audio_cadence_ w) = Some rot ∧ head rot = Some nb ∧
        tick_run w nb r new ∧
        trace w' = trace w ++ ev_snapshot (format_desc_ w) nb :: new ∧
        audio_cadence_ w' = rot ∧ format_desc_ w' = format_desc_ w ∧
        abort_request_ w' = abort_request_ w ∧ routes_ w' = routes_ w ∧
        route_heap w' = route_heap w
  | None => audio_cadence_ w = [] ∨ audio_cadence (format_desc_ w) = []
  end.
Proof.
  unfold tick_body. repeat (rewrite bind_run; simpl).
  destruct (rotate_last (audio_cadence_ w)) as [rot|] eqn:Hrot; simpl;
    [|left; by apply rotate_last_none].
  destruct (rotate_last_some _ _ Hrot) as (nb & init & Hcad & ->). simpl.
  repeat (rewrite bind_run; simpl). rewrite invoke_run. simpl.
  destruct (timecode_tick false (timecode_ w)) as [[tcp|e] tcs] eqn:Hpred; simpl.
  2:{ exists (nb :: init), nb, [ev_predict (Threw e)].
      split_and!; try done; [constructor | by rewrite <- !app_assoc]. }
  rewrite bind_run, invoke_run. simpl.
  destruct (stage_call (format_desc_ w) nb (stage_ w)) as [[frames|e] stg]
    eqn:Hprod; simpl.
  2:{ eexists (nb :: init), nb, _. split_and!; try done.
      - eapply (run_produce_threw w nb tcp e). by rewrite Hprod.
      - by rewrite <- !app_assoc. }
  repeat (rewrite bind_run; simpl). rewrite invoke_run. simpl.
  destruct (timecode_tick true tcs) as [[tc|e] tcs'] eqn:Hcommit; simpl.
  2:{ eexists (nb :: init), nb, _. split_and!; try done.
      - eapply (run_commit_threw w nb tcp frames e). by rewrite Hprod.
      - by rewrite <- !app_assoc. }
  rewrite bind_run.
  match goal with |- context [invoke_timecode_listeners tc ?w1] =>
    destruct (invoke_timecode_listeners_run tc w1)
      as (w2 & L & -> & Hfr & Htr & HL) end.
  simpl in Htr, HL.
  assert (audio_cadence_ w2 = nb :: init) as Hc2 by (by rewrite Hfr).
  assert (format_desc_ w2 = format_desc_ w) as Hf2 by (by rewrite Hfr).
  assert (abort_request_ w2 = abort_request_ w) as Ha2 by (by rewrite Hfr).
  assert (routes_ w2 = routes_ w) as Hr2 by (by rewrite Hfr).
  assert (route_heap w2 = route_heap w) as Hh2 by (by rewrite Hfr).
  rewrite bind_run.
  destruct (head (audio_cadence (format_desc_ w))) as [n0|] eqn:Hn0; simpl;
    [|right; by destruct (audio_cadence (format_desc_ w))].
  rewrite bind_run, invoke_run. simpl.
  destruct (mixer_call frames (format_desc_ w) n0 (mixer_ w2))
    as [[mixed|e] mx] eqn:Hmix; simpl.
  2:{ eexists (nb :: init), nb, _. split_and!; try done.
      - eapply (run_mix_threw w nb tcp frames tc L n0 e); try done.
        by rewrite Hprod.
      - rewrite Htr. unfold upto_listeners. by rewrite <- !app_assoc. }
  repeat (rewrite bind_run; simpl). rewrite invoke_run. simpl.
  destruct (output_call tc mixed (format_desc_ w) (output_ w2))
    as [[[]|e] out] eqn:Hout; simpl.
  2:{ eexists (nb :: init), nb, _. split_and!; try done.
      - eapply (run_consume_threw w nb tcp frames tc L n0 mixed e); try done.
        by rewrite Hprod.
      - rewrite Htr. unfold upto_listeners. by rewrite <- !app_assoc. }
  repeat (rewrite bind_run; simpl). rewrite fan_out_run. simpl.
  rewrite Hr2, Hh2.
  destruct (until_escape (fan_out_events (routes_ w) (route_heap w) frames))
    as [S [e|]] eqn:Hfan; simpl.
  { eexists (nb :: init), nb, _. split_and!; try done.
    - eapply (run_signal_threw w nb tcp frames tc L n0 mixed S e); try done.
      by rewrite Hprod.
    - rewrite Htr. unfold upto_listeners. by rewrite <- !app_assoc. }
  repeat (rewrite bind_run; simpl). rewrite invoke_run. simpl.
  match goal with |- context [tick_ w2 ?st (osc w2)] =>
    destruct (tick_ w2 st (osc w2)) as [[[]|e] snk] eqn:Hpub; simpl;
    (eexists (nb :: init), nb, _; split_and!; try done;
     [ eapply (run_publish w nb tcp frames tc L n0 mixed S st); try done;
       by rewrite Hprod
     | rewrite Htr; unfold upto_listeners; by rewrite <- !app_assoc ])
  end.
Qed.

(** ** Shape of the events of a tick *)

Lemma omap_none_Forall {A B} (f : A → option B) (l : list A) :
  Forall (λ x, f x = None) l → omap f l = [].
Proof. induction 1 as [|x l Hx _ IH]; simpl; [done|]. by rewrite Hx. Qed.

Lemma route_events_signals routes heap key frame :
  Forall is_signal (route_events routes heap key frame).
Proof.
  unfold route_events. destruct (routes !! key) as [weak|]; [|done].
  destruct (weak_lock heap weak) as [[a r]|]; [|done]. by repeat constructor.
Qed.

Lemma fan_out_events_signals routes heap frames :
  Forall is_signal (fan_out_events routes heap frames).
Proof.
  unfold fan_out_events. apply Forall_app. split.
  - induction frames as [|p rest IH]; simpl; [done|].
    apply Forall_app. split; [apply route_events_signals | done].
  - apply route_events_signals.
Qed.

Lemma until_escape_prefix evs : (until_escape evs).1 `prefix_of` evs.
Proof.
  induction evs as [|e evs IH]; simpl; [done|].
  destruct (escapes e).
  - by apply (prefix_cons e [] evs), prefix_nil.
  - destruct (until_escape evs) as [l x]. simpl in *. by apply prefix_cons.
Qed.

Lemma fanned_out_signals routes heap frames S x :
  until_escape (fan_out_events routes heap frames) = (S, x) → Forall is_signal S.
Proof.
  intros Hfan.
  pose proof (until_escape_prefix (fan_out_events routes heap frames)) as [k Hk].
  rewrite Hfan in Hk. simpl in Hk.
  pose proof (fan_out_events_signals routes heap frames) as Hall.
  rewrite Hk in Hall. by apply Forall_app in Hall as [? _].
Qed.

Lemma samples_app l1 l2 : samples (l1 ++ l2) = samples l1 ++ samples l2.
Proof. apply omap_app. Qed.

Lemma samples_listener_loop L : Forall in_listener_loop L → samples L = [].
Proof.
  intros HL. apply omap_none_Forall. eapply Forall_impl; [exact HL|].
  by intros [].
Qed.

Lemma samples_signals S : Forall is_signal S → samples S = [].
Proof.
  intros HS. apply omap_none_Forall. eapply Forall_impl; [exact HS|].
  by intros [].
Qed.

Lemma tick_run_samples w nb r new : tick_run w nb r new → samples new = [].
Proof.
  destruct 1 as [| | |? ? ? L ? ? _ [HL _] _|? ? ? L ? ? ? _ [HL _] _
                 |? ? ? L ? ? S ? _ [HL _] _ HS|? ? ? L ? ? S ? ? _ [HL _] _ HS];
    try done; unfold upto_listeners; rewrite !samples_app;
    rewrite ?(samples_listener_loop L HL),
            ?(samples_signals S (fanned_out_signals _ _ _ _ _ HS)); done.
Qed.

(** ** The cadence over the turns of the loop *)

Lemma sum_Z_perm l1 l2 : l1 ≡ₚ l2 → sum_Z l1 = sum_Z l2.
Proof. induction 1; simpl in *; lia. Qed.

Lemma tick_samples_app m k c :
  tick_samples (m + k) c = tick_samples m c ++ tick_samples k (cadence_after m c).
Proof.
  revert c. induction m as [|m IH]; intros c; simpl; [done|].
  by rewrite IH, app_assoc.
Qed.

Lemma rotate_last_perm c rot : rotate_last c = Some rot → rot ≡ₚ c.
Proof.
  intros (x & init & -> & ->)%rotate_last_some.
  by rewrite Permutation_app_comm.
Qed.

Lemma cadence_after_perm n c : cadence_after n c ≡ₚ c.
Proof.
  revert c. induction n as [|n IH]; intros c; simpl; [done|].
  rewrite IH. destruct (rotate_last c) as [rot|] eqn:Hrot; simpl; [|done].
  by apply rotate_last_perm.
Qed.

Lemma cadence_period xs ys :
  tick_samples (length ys) (xs ++ ys) = reverse ys ∧
  cadence_after (length ys) (xs ++ ys) = ys ++ xs.
Proof.
  revert xs. induction ys as [|y ys IH] using rev_ind; intros xs.
  - simpl. by rewrite app_nil_r.
  - rewrite length_app, Nat.add_comm. simpl.
    rewrite app_assoc, rotate_last_snoc. simpl.
    destruct (IH (y :: xs)) as [Hs Hc]. simpl in Hs, Hc. rewrite Hs, Hc.
    by rewrite reverse_snoc, <- app_assoc.
Qed.

Lemma tick_samples_length n c : c ≠ [] → length (tick_samples n c) = n.
Proof.
  revert c. induction n as [|n IH]; intros c Hc; simpl; [done|].
  destruct c as [|x c] using rev_ind; [done|].
  rewrite rotate_last_snoc. simpl. by rewrite IH.
Qed.

Lemma tick_samples_lookup n c k :
  c ≠ [] → (k < n)%nat → tick_samples n c !! k = head (cadence_after (S k) c).
Proof.
  revert c k. induction n as [|n IH]; intros c k Hc Hk; [lia|].
  destruct c as [|x c _] using rev_ind; [done|].
  simpl. rewrite rotate_last_snoc. simpl.
  destruct k as [|k]; [done|]. simpl.
  rewrite IH by (done || lia). simpl.
  destruct (rotate_last (x :: c)); done.
Qed.

Lemma cadence_after_add a b c :
  cadence_after (a + b) c = cadence_after b (cadence_after a c).
Proof. revert c. induction a as [|a IH]; intros c; simpl; [done|]. apply IH. Qed.

Lemma cadence_after_nonempty n c : c ≠ [] → cadence_after n c ≠ [].
Proof.
  intros Hc Hnil. pose proof (cadence_after_perm n c) as Hp.
  rewrite Hnil in Hp. by apply Permutation_nil_l in Hp.
Qed.

(** A window of as many ticks as the cadence is long reads the cadence of
    its first tick backwards. *)
Lemma tick_samples_window m c :
  c ≠ [] →
  take (length c) (drop m (tick_samples (m + length c) c)) =
  reverse (cadence_after m c).
Proof.
  intros Hc. rewrite tick_samples_app.
  rewrite drop_app_length' by (symmetry; by apply tick_samples_length).
  assert (length c = length (cadence_after m c)) as Hlen
    by (by rewrite cadence_after_perm).
  rewrite Hlen at 2.
  destruct (cadence_period [] (cadence_after m c)) as [Hs _]. simpl in Hs.
  rewrite Hs. rewrite take_ge; [done|]. rewrite length_reverse. lia.
Qed.

(** One turn of the loop on a channel whose cadences are not empty. *)
Lemma loop_iteration_spec w :
  audio_cadence_ w ≠ [] → audio_cadence (format_desc_ w) ≠ [] →
  ∃ w' rot nb new,
    loop_iteration w = Some (Returned tt, w') ∧
    rotate_last (audio_cadence_ w) = Some rot ∧ head rot = Some nb ∧
    trace w' = trace w ++ ev_snapshot (format_desc_ w) nb :: new ∧
    samples new = [] ∧
    audio_cadence_ w' = rot ∧ format_desc_ w' = format_desc_ w ∧
    abort_request_ w' = abort_request_ w.
Proof.
  intros Hc Hfd. unfold loop_iteration, try_catch.
  pose proof (tick_body_spec w) as Hspec.
  destruct (tick_body w) as [[[[]|e] w1]|]; [| |by destruct Hspec].
  - destruct Hspec as (rot & nb & new & Hrot & Hnb & Hrun & Htr & Hc1 & Hf1 & Ha1 & _).
    exists w1, rot, nb, new. split_and!; try done.
    eapply tick_run_samples, Hrun.
  - destruct Hspec as (rot & nb & new & Hrot & Hnb & Hrun & Htr & Hc1 & Hf1 & Ha1 & _).
    eexists _, rot, nb, (new ++ [ev_logged e]). split_and!; try done.
    + simpl. rewrite Htr. by rewrite <- app_assoc.
    + rewrite samples_app, (tick_run_samples _ _ _ _ Hrun). done.
Qed.

Lemma thread_main_samples n w :
  audio_cadence_ w ≠ [] → audio_cadence (format_desc_ w) ≠ [] →
  abort_request_ w = false →
  ∃ w' new,
    thread_main n w = Some (Returned tt, w') ∧ trace w' = trace w ++ new ∧
    samples new = tick_samples n (audio_cadence_ w) ∧
    audio_cadence_ w' = cadence_after n (audio_cadence_ w).
Proof.
  revert w. induction n as [|n IH]; intros w Hc Hfd Hab.
  - exists w, []. by rewrite app_nil_r.
  - cbn [thread_main]. rewrite bind_run. simpl. rewrite Hab, bind_run.
    destruct (loop_iteration_spec w Hc Hfd)
      as (w1 & rot & nb & new & -> & Hrot & Hnb & Htr & Hs & Hc1 & Hf1 & Ha1).
    destruct (IH w1) as (w2 & new2 & -> & Htr2 & Hs2 & Hc2).
    { rewrite Hc1. by destruct rot. }
    { by rewrite Hf1. }
    { by rewrite Ha1. }
    exists w2, (ev_snapshot (format_desc_ w) nb :: new ++ new2).
    split_and!; [done | | |].
    + rewrite Htr2, Htr. by rewrite <- app_assoc.
    + simpl. rewrite Hrot. simpl. rewrite Hnb. simpl.
      by rewrite samples_app, Hs, Hs2, Hc1.
    + simpl. by rewrite Hrot, Hc2, Hc1.
Qed.

(** C1: every tick moves the last element of the owned cadence to the front
    and takes the new front as its sample count; over the turns of the loop
    the sample counts follow the rotations of the cadence, and any [L]
    consecutive ticks, [L] the length of the cadence, use every element once
    and sum to the sum of the cadence. *)
Theorem cadence_rotation_period (w : impl) (m : nat) :
  audio_cadence_ w ≠ [] → audio_cadence (format_desc_ w) ≠ [] →
  abort_request_ w = false →
  let c := audio_cadence_ w in
  let L := length c in
  ∃ w' new,
    thread_main (m + L) w = Some (Returned tt, w') ∧
    trace w' = trace w ++ new ∧
    audio_cadence_ w' = cadence_after (m + L) c ∧
    length (samples new) = (m + L)%nat ∧
    (∀ k, (k < m + L)%nat →
          samples new !! k = head (cadence_after (S k) c) ∧
          ∃ x init, cadence_after k c = init ++ [x] ∧
                    cadence_after (S k) c = x :: init) ∧
    take L (drop m (samples new)) ≡ₚ c ∧
    sum_Z (take L (drop m (samples new))) = sum_Z c.
Proof.
  intros Hc Hfd Hab c L.
  destruct (thread_main_samples (m + L) w Hc Hfd Hab)
    as (w' & new & Hrun & Htr & Hs & Hafter).
  exists w', new. split_and!; try done.
  - rewrite Hs. by apply tick_samples_length.
  - intros k Hk. split; [rewrite Hs; by apply tick_samples_lookup|].
    replace (S k) with (k + 1)%nat by lia. rewrite cadence_after_add.
    pose proof (cadence_after_nonempty k c Hc) as Hne.
    destruct (cadence_after k c) as [|x init _] using rev_ind; [done|].
    exists x, init. split; [done|]. simpl. by rewrite rotate_last_snoc.
  - rewrite Hs. unfold L. rewrite tick_samples_window by done.
    by rewrite reverse_Permutation, cadence_after_perm.
  - apply sum_Z_perm. rewrite Hs. unfold L.
    rewrite tick_samples_window by done.
    by rewrite reverse_Permutation, cadence_after_perm.
Qed.

(** ** Stages of a tick: order and point of failure *)

Lemma compress_head x l : ∃ rest, compress (x :: l) = x :: rest.
Proof.
  simpl. destruct (compress l) as [|y r]; [eauto|].
  destruct (decide (x = y)) as [->|]; eauto.
Qed.

Lemma compress_cons_ne a b l :
  a ≠ b → compress (a :: b :: l) = a :: compress (b :: l).
Proof.
  intros Hne. destruct (compress_head b l) as [rest Hb].
  change (compress (a :: b :: l))
    with (match compress (b :: l) with
          | y :: rest' => if decide (a = y) then y :: rest' else a :: y :: rest'
          | [] => [a]
          end).
  rewrite Hb. by destruct (decide (a = b)).
Qed.

Lemma compress_cons_eq a l : compress (a :: a :: l) = compress (a :: l).
Proof.
  destruct (compress_head a l) as [rest Ha].
  change (compress (a :: a :: l))
    with (match compress (a :: l) with
          | y :: rest' => if decide (a = y) then y :: rest' else a :: y :: rest'
          | [] => [a]
          end).
  rewrite Ha. by destruct (decide (a = a)).
Qed.

Lemma compress_replicate x n l :
  compress (x :: replicate n x ++ l) = compress (x :: l).
Proof.
  induction n as [|n IH]; simpl replicate; [done|].
  change ((x :: replicate n x) ++ l) with (x :: replicate n x ++ l).
  by rewrite compress_cons_eq.
Qed.

Lemma stages_listener_loop L :
  Forall in_listener_loop L → ∃ n, omap stage_of L = replicate n st_listeners.
Proof.
  induction 1 as [|e L He _ [n IH]]; [by exists 0%nat|].
  destruct e; try done; simpl; refold_omap; rewrite IH;
    first [by exists (S n) | by exists n].
Qed.

Lemma stages_signals S :
  Forall is_signal S → omap stage_of S = replicate (length S) st_routes.
Proof.
  induction 1 as [|e S He _ IH]; [done|].
  destruct e; try done. simpl. refold_omap. by rewrite IH.
Qed.

Lemma escapes_listener_loop L :
  Forall in_listener_loop L → Forall (λ e, escapes e = None) L.
Proof. intros HL. eapply Forall_impl; [exact HL|]. by intros []. Qed.

#[local] Arguments compress : simpl never.

Lemma tick_run_shape w nb r new :
  tick_run w nb r new →
  ∃ pre final k,
    new = pre ++ [final] ∧
    Forall (λ e, escapes e = None) pre ∧
    escapes final = match r with Threw e => Some e | Returned _ => None end ∧
    (∃ s, stage_of final = Some s ∧ ended_at s k) ∧
    stages (ev_snapshot (format_desc_ w) nb :: new) = take (S k) all_stages ∧
    (∀ u, r = Returned u → k = 8%nat).
Proof.
  destruct 1 as [e|tcp e Hp|tcp frames e Hp
                 |tcp frames tc L n0 e Hp [HL _] Hn
                 |tcp frames tc L n0 mixed e Hp [HL _] Hn
                 |tcp frames tc L n0 mixed S e Hp [HL _] Hn HS
                 |tcp frames tc L n0 mixed S st r Hp [HL _] Hn HS].
  - exists [], (ev_predict (Threw e)), 1%nat.
    split_and!; try done. by exists st_predict.
  - exists [ev_predict (Returned tcp)],
      (ev_produce (format_desc_ w) nb (Threw e)), 2%nat.
    split_and!; try done; [by repeat constructor | by exists st_produce].
  - exists [ev_predict (Returned tcp);
            ev_produce (format_desc_ w) nb (Returned frames)],
      (ev_commit (Threw e)), 3%nat.
    split_and!; try done; [by repeat constructor | by exists st_commit].
  - destruct (stages_listener_loop L HL) as [n Hst].
    exists (upto_listeners w nb tcp frames tc L),
      (ev_mix frames (format_desc_ w) n0 (Threw e)), 5%nat.
    split_and!; try done.
    + unfold upto_listeners. apply Forall_app. split;
        [by repeat constructor | by apply escapes_listener_loop].
    + by exists st_mix.
    + unfold stages, upto_listeners. simpl. refold_omap.
      rewrite !omap_app, Hst. simpl. refold_omap.
      rewrite !compress_cons_ne, compress_replicate by done. done.
  - destruct (stages_listener_loop L HL) as [n Hst].
    eexists (upto_listeners w nb tcp frames tc L ++
             [ev_mix frames (format_desc_ w) n0 (Returned mixed)]),
      (ev_consume tc mixed (format_desc_ w) (Threw e)), 6%nat.
    split_and!; try done.
    + by rewrite <- app_assoc.
    + unfold upto_listeners. rewrite !Forall_app. split_and!;
        [by repeat constructor | by apply escapes_listener_loop
        | by repeat constructor].
    + by exists st_consume.
    + unfold stages, upto_listeners. simpl. refold_omap.
      rewrite !omap_app, Hst. simpl. refold_omap.
      rewrite !compress_cons_ne, compress_replicate by done. done.
  - destruct (stages_listener_loop L HL) as [n Hst].
    pose proof (fanned_out_signals _ _ _ _ _ HS) as Hsig.
    destruct (until_escape_some _ _ _ HS) as (S' & x & rest & -> & _ & Hx & Hnone).
    apply Forall_app in Hsig as [Hsig' Hsigx].
    eexists (upto_listeners w nb tcp frames tc L ++
             [ev_mix frames (format_desc_ w) n0 (Returned mixed);
              ev_consume tc mixed (format_desc_ w) (Returned tt);
              ev_fanout frames] ++ S'), x, 7%nat.
    split_and!; try done.
    + by rewrite !app_assoc.
    + unfold upto_listeners. rewrite !Forall_app. split_and!;
        [by repeat constructor | by apply escapes_listener_loop
        | by repeat constructor | done].
    + exists st_routes. split; [|done].
      rewrite Forall_singleton in Hsigx. by destruct x; simpl in Hsigx.
    + unfold stages, upto_listeners. simpl. refold_omap.
      rewrite !omap_app, Hst. simpl. refold_omap.
      rewrite omap_app, (stages_signals S' Hsig').
      rewrite Forall_singleton in Hsigx. destruct x; simpl in Hsigx; try done.
      simpl.
      rewrite !compress_cons_ne, compress_replicate by done.
      rewrite !compress_cons_ne by done.
      change [st_routes] with (replicate 1 st_routes).
      rewrite <- (app_nil_r (replicate (length S') st_routes ++ _)).
      rewrite <- replicate_add, compress_replicate. done.
  - destruct (stages_listener_loop L HL) as [n Hst].
    pose proof (fanned_out_signals _ _ _ _ _ HS) as Hsig.
    destruct (until_escape_none _ _ HS) as [_ Hnone].
    assert (Forall (λ e : event, escapes e = None) S) as HnoneS.
    { pose proof (until_escape_prefix
                    (fan_out_events (routes_ w) (route_heap w) frames)) as [k Hk].
      rewrite HS in Hk. simpl in Hk. rewrite Hk in Hnone.
      by apply Forall_app in Hnone as [? _]. }
    eexists (upto_listeners w nb tcp frames tc L ++
             [ev_mix frames (format_desc_ w) n0 (Returned mixed);
              ev_consume tc mixed (format_desc_ w) (Returned tt);
              ev_fanout frames] ++ S), (ev_publish st r), 8%nat.
    split_and!; try done.
    + by rewrite <- !app_assoc.
    + unfold upto_listeners. rewrite !Forall_app. split_and!;
        [by repeat constructor | by apply escapes_listener_loop
        | by repeat constructor | done].
    + by exists st_publish.
    + unfold stages, upto_listeners. simpl. refold_omap.
      rewrite !omap_app, Hst. simpl. refold_omap.
      rewrite omap_app, (stages_signals S Hsig). simpl.
      rewrite !compress_cons_ne, compress_replicate by done.
      rewrite !compress_cons_ne by done.
      rewrite compress_replicate. done.
Qed.

(** ** Which calls a tick contains *)

(** Membership in the events of a tick, case by case. *)
Ltac tick_run_cases Htick Hin L HL S HS :=
  destruct Htick
    as [| | |? ? ? L ? ? ? [HL ?] ?|? ? ? L ? ? ? ? [HL ?] ?
        |? ? ? L ? ? S ? ? [HL ?] ? HS|? ? ? L ? ? S ? ? ? [HL ?] ? HS];
  unfold upto_listeners in *;
  try (apply fanned_out_signals in HS);
  repeat (first [ rewrite elem_of_app in Hin | rewrite elem_of_cons in Hin ]);
  repeat match goal with
         | Hx : _ ∨ _ |- _ => destruct Hx as [Hx|Hx]
         end;
  try (by apply elem_of_nil in Hin);
  try (by apply (proj1 (Forall_forall _ _) HL) in Hin);
  try (by apply (proj1 (Forall_forall _ _) HS) in Hin);
  try (by inversion Hin).

Lemma tick_run_produce w nb r new fd n rp :
  tick_run w nb r new → ev_produce fd n rp ∈ new →
  fd = format_desc_ w ∧ n = nb ∧ rp = (stage_call fd nb (stage_ w)).1.
Proof.
  intros Htick Hin. tick_run_cases Htick Hin lis Hlis sgl Hsgl;
    inversion Hin; subst; by split_and!.
Qed.

Lemma tick_run_mix w nb r new frames fd n rm :
  tick_run w nb r new → ev_mix frames fd n rm ∈ new →
  fd = format_desc_ w ∧ head (audio_cadence fd) = Some n ∧
  ev_produce fd nb (Returned frames) ∈ new.
Proof.
  intros Htick Hin. tick_run_cases Htick Hin lis Hlis sgl Hsgl;
    inversion Hin; subst; split_and!; try done;
    rewrite ?elem_of_app, !elem_of_cons; tauto.
Qed.

(** C4: an exception that leaves a call of the tick body ends the tick at
    that call: the calls before it returned, the stages after it did not
    run, the handler of the loop logs the exception, and the next turn of
    the loop starts a tick with its snapshot. *)
Theorem tick_failure_contained (w w1 : impl) (e : exn) (n : nat) :
  tick_body w = Some (Threw e, w1) →
  abort_request_ w = false →
  audio_cadence (format_desc_ w) ≠ [] →
  (∃ pre failing s k,
     trace w1 = trace w ++ pre ++ [failing] ∧
     escapes failing = Some e ∧
     Forall (λ ev, escapes ev = None) pre ∧
     stage_of failing = Some s ∧ all_stages !! k = Some s ∧
     stages (pre ++ [failing]) = take (S k) all_stages) ∧
  loop_iteration w = Some (Returned tt, set_trace (trace w1 ++ [ev_logged e]) w1) ∧
  ∃ w2 rot nb rest,
    loop_iteration (set_trace (trace w1 ++ [ev_logged e]) w1)
      = Some (Returned tt, w2) ∧
    rotate_last (audio_cadence_ w1) = Some rot ∧ head rot = Some nb ∧
    trace w2 = trace w1 ++
      ev_logged e :: ev_snapshot (format_desc_ w) nb :: rest ∧
    thread_main (S (S n)) w = thread_main n w2.
Proof.
  intros Hrun Hab Hfd. pose proof (tick_body_spec w) as Hspec.
  rewrite Hrun in Hspec.
  destruct Hspec as (rot & nb & new & Hrot & Hnb & Htick & Htr & Hc1 & Hf1 & Ha1 & _).
  destruct (tick_run_shape _ _ _ _ Htick)
    as (pre & final & k & -> & Hpre & Hfinal & (s & Hs & Hk) & Hst & _).
  assert (loop_iteration w
          = Some (Returned tt, set_trace (trace w1 ++ [ev_logged e]) w1)) as Hloop.
  { unfold loop_iteration, try_catch. by rewrite Hrun. }
  split_and!; [|done|].
  - exists (ev_snapshot (format_desc_ w) nb :: pre), final, s, k.
    split_and!; try done. by constructor.
  - destruct (loop_iteration_spec (set_trace (trace w1 ++ [ev_logged e]) w1))
      as (w2 & rot2 & nb2 & rest & Hloop2 & Hrot2 & Hnb2 & Htr2 & _).
    { simpl. rewrite Hc1. by destruct rot. }
    { simpl. by rewrite Hf1. }
    simpl in Hrot2, Htr2. rewrite Hf1 in Htr2.
    exists w2, rot2, nb2, rest. split_and!; try done.
    + rewrite Htr2. by rewrite <- app_assoc.
    + cbn [thread_main]. rewrite bind_run. simpl. rewrite Hab.
      rewrite bind_run, Hloop. rewrite bind_run. simpl. rewrite Ha1, Hab.
      by rewrite bind_run, Hloop2.
Qed.

(** ** The listener table as a range-for sees it *)

Lemma bucket_order_dom (m : gmap Z listener) k :
  k ∈ bucket_order (dom m) ↔ is_Some (m !! k).
Proof. by rewrite bucket_order_perm, elem_of_elements, elem_of_dom. Qed.

Lemma umap_entries_fst (m : gmap Z listener) :
  (umap_entries m).*1 = bucket_order (dom m).
Proof.
  unfold umap_entries.
  assert (∀ ks : list Z, (∀ k, k ∈ ks → is_Some (m !! k)) →
            (omap (λ k, (k,.) <$> m !! k) ks).*1 = ks) as Hgen.
  { induction ks as [|k ks IH]; intros Hks; [done|].
    destruct (Hks k) as [l Hl]; [left|].
    assert (omap (λ k, (k,.) <$> m !! k) (k :: ks)
            = (k, l) :: omap (λ k, (k,.) <$> m !! k) ks) as ->
      by (simpl; by rewrite Hl).
    rewrite fmap_cons, IH; [done|]. intros k' Hk'. apply Hks. by right. }
  apply Hgen. intros k. apply bucket_order_dom.
Qed.

Lemma umap_entries_elem (m : gmap Z listener) k l :
  (k, l) ∈ umap_entries m ↔ m !! k = Some l.
Proof.
  unfold umap_entries. rewrite list_elem_of_omap. split.
  - intros (k' & _ & Hk'). destruct (m !! k') as [l'|] eqn:Hl; [|done].
    simpl in Hk'. by injection Hk' as -> ->.
  - intros Hl. exists k. split; [|by rewrite Hl].
    apply bucket_order_dom. by rewrite Hl.
Qed.

Lemma umap_entries_NoDup (m : gmap Z listener) : NoDup (umap_entries m).*1.
Proof.
  rewrite umap_entries_fst, bucket_order_perm. apply NoDup_elements.
Qed.

Lemma listener_calls_app l1 l2 :
  listener_calls (l1 ++ l2) = listener_calls l1 ++ listener_calls l2.
Proof. apply omap_app. Qed.

Lemma listener_calls_signals S : Forall is_signal S → listener_calls S = [].
Proof.
  intros HS. apply omap_none_Forall. eapply Forall_impl; [exact HS|].
  by intros [].
Qed.

Lemma tick_run_committed w nb r new tc :
  tick_run w nb r new → ev_commit (Returned tc) ∈ new →
  listener_calls new =
    (λ p, (p.1, tc, (listener_call p.2 tc).1)) <$> umap_entries (timecode_listeners_ w).
Proof.
  intros Htick Hin. tick_run_cases Htick Hin lis Hlis sgl Hsgl;
    (injection Hin as <-; rewrite !listener_calls_app; simpl;
     rewrite ?(listener_calls_signals sgl Hsgl); simpl;
     rewrite ?app_nil_r; done).
Qed.

(** C7: every listener of the snapshot is called once with the timecode the
    call was given, whether or not any of them throws, and no exception
    leaves [invoke_timecode_listeners]; in a tick, the timecode is the one
    [tick(true)] has just returned. *)
Theorem listeners_all_invoked (tc : frame_timecode) (w : impl) :
  let snapshot := umap_entries (timecode_listeners_ w) in
  (∀ id l, (id, l) ∈ snapshot ↔ timecode_listeners_ w !! id = Some l) ∧
  NoDup snapshot.*1 ∧
  (∃ w' L,
     invoke_timecode_listeners tc w = Some (Returned tt, w') ∧
     trace w' = trace w ++ ev_listeners tc snapshot.*1 :: L ∧
     Forall in_listener_loop L ∧
     listener_calls L =
       (λ p, (p.1, tc, (listener_call p.2 tc).1)) <$> snapshot) ∧
  (∀ r w2 tc2,
     tick_body w = Some (r, w2) →
     ev_commit (Returned tc2) ∈ drop (length (trace w)) (trace w2) →
     listener_calls (drop (length (trace w)) (trace w2)) =
       (λ p, (p.1, tc2, (listener_call p.2 tc2).1)) <$> snapshot).
Proof.
  intros snapshot. split_and!.
  - apply umap_entries_elem.
  - apply umap_entries_NoDup.
  - destruct (invoke_timecode_listeners_run tc w)
      as (w' & L & Hrun & _ & Htr & HL & Hcalls).
    by exists w', L.
  - intros r w2 tc2 Hrun. pose proof (tick_body_spec w) as Hspec.
    rewrite Hrun in Hspec.
    destruct Hspec as (rot & nb & new & _ & _ & Htick & Htr & _).
    rewrite Htr, drop_app_length. rewrite elem_of_cons.
    intros [?|Hin]; [done|]. simpl. refold_omap.
    by apply (tick_run_committed _ _ _ _ _ Htick).
Qed.

(** ** Order of the listeners *)

Lemma StronglySorted_app_lt (l1 l2 : list Z) a b :
  StronglySorted Z.lt (l1 ++ l2) → a ∈ l1 → b ∈ l2 → a < b.
Proof.
  induction l1 as [|x l1 IH]; intros Hs Ha Hb; [by apply elem_of_nil in Ha|].
  simpl in Hs. apply StronglySorted_inv in Hs as [Hs Hx].
  apply elem_of_cons in Ha as [->|Ha]; [|by apply IH].
  rewrite Forall_forall in Hx. apply Hx. apply elem_of_app. by right.
Qed.

Lemma sorted_precedes (l : list Z) i j :
  StronglySorted Z.lt l → i < j → i ∈ l → j ∈ l → precedes i j l.
Proof.
  intros Hs Hij Hi Hj. apply list_elem_of_split in Hi as (l1 & l2 & ->).
  apply elem_of_app in Hj as [Hj|Hj].
  - pose proof (StronglySorted_app_lt l1 (i :: l2) j i Hs Hj) as Hlt.
    assert (j < i) by (apply Hlt; left). lia.
  - apply elem_of_cons in Hj as [->|Hj]; [lia|].
    apply list_elem_of_split in Hj as (l2a & l2b & ->).
    by exists l1, l2a, l2b.
Qed.

(** C2, as the code has it: the listeners are called in the order in which
    the unordered table iterates, whatever that order is; ids are called in
    ascending order when the table iterates in ascending order. *)
Theorem listener_order_is_iteration_order (tc : frame_timecode) (w : impl) :
  let order := bucket_order (dom (timecode_listeners_ w)) in
  ∃ w' L,
    invoke_timecode_listeners tc w = Some (Returned tt, w') ∧
    trace w' = trace w ++ ev_listeners tc order :: L ∧
    (listener_calls L).*1.*1 = order ∧
    (∀ i j, precedes i j (listener_calls L).*1.*1 ↔ precedes i j order) ∧
    (StronglySorted Z.lt order →
     ∀ i j, i < j →
            is_Some (timecode_listeners_ w !! i) →
            is_Some (timecode_listeners_ w !! j) →
            precedes i j (listener_calls L).*1.*1).
Proof.
  intros order.
  destruct (invoke_timecode_listeners_run tc w)
    as (w' & L & Hrun & _ & Htr & HL & Hcalls).
  assert ((listener_calls L).*1.*1 = order) as Horder.
  { rewrite Hcalls, <- !list_fmap_compose. unfold order.
    rewrite <- umap_entries_fst. by apply list_fmap_ext. }
  exists w', L. split_and!; try done.
  - by rewrite Htr, umap_entries_fst.
  - intros i j. by rewrite Horder.
  - intros Hsorted i j Hij Hi Hj. rewrite Horder.
    apply sorted_precedes; try done; by apply bucket_order_dom.
Qed.

(** ** Route fan-out *)

Lemma weak_lock_some heap weak a r :
  weak_lock heap weak = Some (a, r) →
  weak = Some a ∧ ∃ n, heap !! a = Some (r, S n).
Proof.
  destruct weak as [a'|]; simpl; [|done].
  destruct (heap !! a') as [[r' [|n]]|] eqn:Hh; try done.
  intros [= <- <-]. eauto.
Qed.

Lemma signals_app l1 l2 : signals (l1 ++ l2) = signals l1 ++ signals l2.
Proof. apply omap_app. Qed.

Lemma route_events_alive routes heap key frame weak a r :
  routes !! key = Some weak → weak_lock heap weak = Some (a, r) →
  signals (route_events routes heap key frame) = [(key, a, frame)].
Proof. intros Hk Hl. unfold route_events. by rewrite Hk, Hl. Qed.

Lemma route_events_signal routes heap key frame s :
  s ∈ signals (route_events routes heap key frame) →
  s.1.1 = key ∧ s.2 = frame ∧ routes !! key = Some (Some s.1.2) ∧
  ∃ r, weak_lock heap (Some s.1.2) = Some (s.1.2, r).
Proof.
  unfold route_events. destruct (routes !! key) as [weak|] eqn:Hk;
    [|by intros ?%elem_of_nil].
  destruct (weak_lock heap weak) as [[a r]|] eqn:Hl;
    [|by intros ?%elem_of_nil].
  simpl. intros ->%list_elem_of_singleton. simpl.
  destruct (weak_lock_some _ _ _ _ Hl) as [-> _]. eauto.
Qed.

Lemma layer_events_app routes heap M1 M2 :
  layer_events routes heap (M1 ++ M2) =
  layer_events routes heap M1 ++ layer_events routes heap M2.
Proof. unfold layer_events. by rewrite fmap_app, concat_app. Qed.

Lemma layer_events_signal routes heap M s :
  s ∈ signals (layer_events routes heap M) →
  ∃ frame, (s.1.1, frame) ∈ M ∧ s.2 = draw_frame_pop frame ∧
           routes !! s.1.1 = Some (Some s.1.2) ∧
           ∃ r, weak_lock heap (Some s.1.2) = Some (s.1.2, r).
Proof.
  induction M as [|[k f] M IH]; [by intros ?%elem_of_nil|].
  change (layer_events routes heap ((k, f) :: M))
    with (route_events routes heap k (draw_frame_pop f) ++ layer_events routes heap M).
  rewrite signals_app, elem_of_app. intros [Hs|Hs].
  - apply route_events_signal in Hs as (Hk & Hf & Hr & Hl).
    exists f. rewrite Hk. split_and!; try done. left.
  - destruct (IH Hs) as (frame & Hin & ?). exists frame. split; [by right|done].
Qed.

Lemma until_escape_all evs :
  Forall (λ e, escapes e = None) evs → until_escape evs = (evs, None).
Proof.
  induction 1 as [|e evs He _ IH]; simpl; [done|]. by rewrite He, IH.
Qed.

(** C5: in a fan-out in which no signal throws, the route that is alive
    under the layer of a produced frame is signalled once, with the popped
    frame; the route that is alive under -1 is signalled once, with the
    composite of all produced frames in iteration order; and nothing is
    signalled under a key that has no live route. *)
Theorem route_fan_out (w : impl) (stage_frames : frame_map) :
  NoDup stage_frames.*1 →
  (∀ k, k ∈ stage_frames.*1 → 0 ≤ k) →
  routes_distinct (routes_ w) →
  Forall (λ e, escapes e = None)
    (fan_out_events (routes_ w) (route_heap w) stage_frames) →
  ∃ S,
    fan_out stage_frames w
      = Some (Returned tt, set_trace (trace w ++ ev_fanout stage_frames :: S) w) ∧
    Forall is_signal S ∧
    (∀ layer frame a r,
       (layer, frame) ∈ stage_frames → alive_route w layer a r →
       ∃ before after,
         signals S = before ++ (layer, a, draw_frame_pop frame) :: after ∧
         Forall (λ s, s.1.2 ≠ a) (before ++ after)) ∧
    (∀ a r,
       alive_route w (-1) a r →
       ∃ before,
         signals S = before ++ [(-1, a, draw_frame_of stage_frames.*2)] ∧
         Forall (λ s, s.1.2 ≠ a) before) ∧
    (∀ key, (∀ a r, ¬ alive_route w key a r) →
            Forall (λ s, s.1.1 ≠ key) (signals S)).
Proof.
  intros Hnodup Hpos Hdist Hok.
  exists (fan_out_events (routes_ w) (route_heap w) stage_frames).
  split_and!.
  - rewrite fan_out_run. simpl. by rewrite (until_escape_all _ Hok).
  - apply fan_out_events_signals.
  - intros layer frame a r Hin (weak & Hweak & Hlock).
    destruct (weak_lock_some _ _ _ _ Hlock) as [-> _].
    apply list_elem_of_split in Hin as (M1 & M2 & ->).
    exists (signals (layer_events (routes_ w) (route_heap w) M1)),
      (signals (layer_events (routes_ w) (route_heap w) M2) ++
       signals (route_events (routes_ w) (route_heap w) (-1)
                  (draw_frame_of (M1 ++ (layer, frame) :: M2).*2))).
    split.
    + unfold fan_out_events.
      change (concat (?f <$> ?l)) with (layer_events (routes_ w) (route_heap w) l).
      rewrite layer_events_app.
      change (layer_events (routes_ w) (route_heap w) ((layer, frame) :: M2))
        with (route_events (routes_ w) (route_heap w) layer (draw_frame_pop frame)
              ++ layer_events (routes_ w) (route_heap w) M2).
      rewrite !signals_app, (route_events_alive _ _ _ _ _ _ _ Hweak Hlock).
      by rewrite <- !app_assoc.
    + rewrite fmap_app, fmap_cons in Hnodup. simpl in Hnodup.
      apply NoDup_app in Hnodup as (_ & Hnot1 & Hnodup2).
      apply NoDup_cons in Hnodup2 as [Hnot2 _].
      rewrite !Forall_app. split_and!; apply Forall_forall; intros s Hs Ha.
      * apply layer_events_signal in Hs as (f & Hin & _ & Hr & _).
        rewrite Ha in Hr. pose proof (Hdist _ _ _ Hr Hweak) as Hkey.
        apply (Hnot1 layer); [|left].
        apply list_elem_of_fmap. exists (s.1.1, f). by rewrite Hkey in *.
      * apply layer_events_signal in Hs as (f & Hin & _ & Hr & _).
        rewrite Ha in Hr. pose proof (Hdist _ _ _ Hr Hweak) as Hkey.
        apply Hnot2. apply list_elem_of_fmap. exists (s.1.1, f).
        by rewrite Hkey in *.
      * apply route_events_signal in Hs as (Hk & _ & Hr & _).
        rewrite Ha in Hr. pose proof (Hdist _ _ _ Hr Hweak) as Hkey.
        assert (0 ≤ layer) as Hl.
        { apply Hpos. rewrite fmap_app, fmap_cons. apply elem_of_app.
          right. left. }
        lia.
  - intros a r (weak & Hweak & Hlock).
    destruct (weak_lock_some _ _ _ _ Hlock) as [-> _].
    exists (signals (layer_events (routes_ w) (route_heap w) stage_frames)).
    split.
    + unfold fan_out_events.
      change (concat (?f <$> ?l)) with (layer_events (routes_ w) (route_heap w) l).
      by rewrite signals_app, (route_events_alive _ _ _ _ _ _ _ Hweak Hlock).
    + apply Forall_forall. intros s Hs Ha.
      apply layer_events_signal in Hs as (f & Hin & _ & Hr & _).
      rewrite Ha in Hr. pose proof (Hdist _ _ _ Hr Hweak) as Hkey.
      assert (0 ≤ s.1.1) as Hl.
      { apply Hpos. apply list_elem_of_fmap. by exists (s.1.1, f). }
      lia.
  - intros key Hdead. apply Forall_forall. intros s Hs Hkey.
    unfold fan_out_events in Hs.
    change (concat (?f <$> ?l)) with (layer_events (routes_ w) (route_heap w) l) in Hs.
    rewrite signals_app, elem_of_app in Hs. destruct Hs as [Hs|Hs].
    + apply layer_events_signal in Hs as (f & _ & _ & Hr & (r & Hl)).
      apply (Hdead s.1.2 r). exists (Some s.1.2). by rewrite <- Hkey.
    + apply route_events_signal in Hs as (Hk & _ & Hr & (r & Hl)).
      apply (Hdead s.1.2 r). exists (Some s.1.2). by rewrite <- Hkey, Hk.
Qed.

(** ** The route registry *)

Lemma route_alive_run w index a r :
  alive_route w index a r →
  ∃ n, route_heap w !! a = Some (r, S n) ∧
       route index w =
       Some (Returned a,
             set_route_heap (<[a := (r, S (S n))]> (route_heap w)) w).
Proof.
  intros (weak & Hweak & Hlock).
  destruct (weak_lock_some _ _ _ _ Hlock) as [-> [n Hn]].
  exists n. split; [done|].
  unfold route. rewrite bind_run. unfold modify at 1. rewrite Hweak.
  rewrite bind_run. unfold gets at 1. rewrite Hweak.
  rewrite bind_run. unfold gets at 1. cbn [default from_option id weak_lock].
  rewrite Hn. rewrite bind_run. unfold modify, acquire. by rewrite Hn.
Qed.

Lemma route_fresh_run w index :
  (∀ a r, ¬ alive_route w index a r) →
  route index w =
  Some (Returned (length (route_heap w)),
        set_routes_ (<[index := Some (length (route_heap w))]> (routes_ w))
          (set_route_heap (route_heap w ++ [(new_route w index, 1%nat)]) w)).
Proof.
  intros Hdead. unfold route. rewrite bind_run. unfold modify at 1.
  destruct (routes_ w !! index) as [weak|] eqn:Hweak.
  - rewrite bind_run. unfold gets at 1. rewrite Hweak.
    rewrite bind_run. unfold gets at 1. cbn [default from_option id].
    destruct (weak_lock (route_heap w) weak) as [[a r]|] eqn:Hlock.
    { destruct (Hdead a r). by exists weak. }
    reflexivity.
  - rewrite bind_run. unfold gets at 1. fields. rewrite lookup_insert_eq.
    rewrite bind_run. unfold gets at 1. cbn [default from_option id weak_lock].
    unfold gets, modify, mret, M_ret. rewrite !bind_run. fields.
    rewrite insert_insert_eq. reflexivity.
Qed.

Lemma alive_or_not w index :
  (∃ a r, alive_route w index a r) ∨ (∀ a r, ¬ alive_route w index a r).
Proof.
  destruct (routes_ w !! index) as [weak|] eqn:Hweak.
  - destruct (weak_lock (route_heap w) weak) as [[a r]|] eqn:Hlock.
    + left. exists a, r, weak. done.
    + right. intros a r (weak' & Hweak' & Hlock'). congruence.
  - right. intros a r (weak' & Hweak' & _). congruence.
Qed.

Lemma alive_route_unique w index a1 r1 a2 r2 :
  alive_route w index a1 r1 → alive_route w index a2 r2 → a1 = a2 ∧ r1 = r2.
Proof. intros (? & ? & ?) (? & ? & ?). split; congruence. Qed.

(** C8: [route(index)] returns the route that is alive under [index] when
    there is one, taking one more strong reference to it, and otherwise
    creates a route, stores a weak reference to it under [index] and returns
    the first strong reference; a second call right after the first returns
    the same route. *)
Theorem route_idempotent (index : Z) (w : impl) :
  ∃ a w',
    route index w = Some (Returned a, w') ∧
    (∀ a0 r0, alive_route w index a0 r0 →
       a = a0 ∧ routes_ w' = routes_ w ∧
       ∃ n, route_heap w !! a = Some (r0, S n) ∧
            route_heap w' = <[a := (r0, S (S n))]> (route_heap w)) ∧
    ((∀ a0 r0, ¬ alive_route w index a0 r0) →
       a = length (route_heap w) ∧
       route_heap w' = route_heap w ++ [(new_route w index, 1%nat)] ∧
       routes_ w' = <[index := Some a]> (routes_ w)) ∧
    (∃ r, alive_route w' index a r) ∧
    ∃ w'', route index w' = Some (Returned a, w'').
Proof.
  destruct (alive_or_not w index) as [(a & r & Halive)|Hdead].
  - destruct (route_alive_run _ _ _ _ Halive) as (n & Hn & Hrun).
    eexists a, _. split; [exact Hrun|].
    assert (alive_route
              (set_route_heap (<[a := (r, S (S n))]> (route_heap w)) w)
              index a r) as Halive'.
    { destruct Halive as (weak & Hweak & Hlock). exists weak. split; [done|].
      destruct (weak_lock_some _ _ _ _ Hlock) as [-> _]. fields.
      cbn [weak_lock]. rewrite list_lookup_insert_eq; [done|].
      by eapply lookup_lt_Some. }
    split_and!.
    + intros a0 r0 Halive0.
      destruct (alive_route_unique _ _ _ _ _ _ Halive Halive0) as [<- <-].
      eauto.
    + intros Hdead. by destruct (Hdead a r).
    + by exists r.
    + destruct (route_alive_run _ _ _ _ Halive') as (n' & _ & ->). eauto.
  - eexists (length (route_heap w)), _. split; [by apply route_fresh_run|].
    match goal with |- context [alive_route ?v index (length _) _] =>
      assert (alive_route v index (length (route_heap w)) (new_route w index))
        as Halive' end.
    { eexists. fields. rewrite lookup_insert_eq. split; [done|].
      cbn [weak_lock]. by rewrite lookup_app_r, Nat.sub_diag by lia. }
    split_and!.
    + intros a0 r0 Halive0. by destruct (Hdead a0 r0).
    + done.
    + eauto.
    + destruct (route_alive_run _ _ _ _ Halive') as (n' & _ & ->). eauto.
Qed.

(** ** The states a channel can be in *)

Lemma wrap64_small z : - 2 ^ 63 ≤ z < 2 ^ 63 → wrap64 z = z.
Proof. intros Hz. unfold wrap64. rewrite Z.mod_small; lia. Qed.

Lemma wrap64_succ a : wrap64 (wrap64 a + 1) = wrap64 (a + 1).
Proof.
  unfold wrap64.
  replace ((a + 2 ^ 63) mod 2 ^ 64 - 2 ^ 63 + 1 + 2 ^ 63)
    with ((a + 2 ^ 63) mod 2 ^ 64 + 1) by lia.
  replace (a + 1 + 2 ^ 63) with ((a + 2 ^ 63) + 1) by lia.
  by rewrite Zplus_mod_idemp_l.
Qed.

Lemma registered_app l1 l2 : registered (l1 ++ l2) = registered l1 ++ registered l2.
Proof. apply omap_app. Qed.

Lemma registered_other tr e :
  is_registered e = false → registered (tr ++ [e]) = registered tr.
Proof. intros He. rewrite registered_app. destruct e; try done; apply app_nil_r. Qed.

Lemma preserves_emit_inv e :
  is_registered e = false → preserves channel_inv (emit e).
Proof.
  intros He. apply preserves_modify. intros w [Hreg Hroutes].
  split; [|done]. unfold registry_ok in *. fields.
  by rewrite (registered_other _ _ He).
Qed.

Lemma preserves_add_timecode_listener l :
  preserves channel_inv (add_timecode_listener l).
Proof.
  intros w r w' [(Hids & Hlast & Htbl) Hroutes].
  rewrite add_timecode_listener_run. intros [= _ <-].
  split; [|done]. unfold registry_ok. fields.
  rewrite registered_app. simpl. rewrite length_app. simpl.
  rewrite Nat.add_1_r. split_and!.
  - rewrite seq_S, fmap_app. simpl. by rewrite <- Hids, Hlast.
  - rewrite Hlast, wrap64_succ. f_equal. lia.
  - intros k. unfold umap_insert.
    destruct (timecode_listeners_ w !! last_timecode_listener_id w) eqn:Hl.
    + intros Hk. apply elem_of_app. left. by apply Htbl.
    + rewrite lookup_insert. case_decide as Hk; [subst k|].
      * intros _. apply elem_of_app. right. left.
      * intros Hs. apply elem_of_app. left. by apply Htbl.
Qed.

Lemma preserves_drop_token t : preserves channel_inv (drop_token t).
Proof.
  intros w r w' [(Hids & Hlast & Htbl) Hroutes].
  rewrite drop_token_run. intros [= _ <-].
  split; [|done]. unfold registry_ok. fields.
  rewrite registered_other by done. split_and!; try done.
  intros k. rewrite lookup_delete. case_decide; [by intros [? ?]|]. apply Htbl.
Qed.

Lemma preserves_run_ops ops : preserves channel_inv (run_ops ops).
Proof.
  induction ops as [|[l|t] ops IH]; simpl.
  - apply preserves_ret.
  - apply preserves_bind; [apply preserves_add_timecode_listener|done].
  - apply preserves_bind; [apply preserves_drop_token|done].
Qed.

(** Code that is put together from pieces that keep [channel_inv]. *)
Ltac keeps :=
  repeat lazymatch goal with
    | |- preserves _ (_ ≫= _) => apply preserves_bind; [|intros ?]
    | |- preserves _ (mret _) => apply preserves_ret
    | |- preserves _ (gets _) => apply preserves_gets
    | |- preserves _ (defined _) => apply preserves_defined
    | |- preserves _ (raise_of _) => apply preserves_raise_of
    | |- preserves _ (throw _) => apply preserves_throw
    | |- preserves _ (run_ops _) => apply preserves_run_ops
    | |- preserves _ (try_catch _ _) => apply preserves_try_catch; [|intros ?]
    | |- preserves _ (for_each _ _) => apply preserves_for_each; intros ?
    | |- preserves _ (emit _) => apply preserves_emit_inv; reflexivity
    | |- preserves _ (modify _) =>
        apply preserves_modify; let Hinv := fresh in intros ? Hinv; exact Hinv
    | |- preserves _ (match ?x with _ => _ end) => destruct x
    | |- preserves _ (let _ := _ in _) => cbv zeta
    end.

Lemma preserves_invoke_timecode_listeners tc :
  preserves channel_inv (invoke_timecode_listeners tc).
Proof. unfold invoke_timecode_listeners, invoke_listener. keeps. Qed.

Lemma preserves_fan_out_loop stage_frames frames :
  preserves channel_inv (fan_out_loop stage_frames frames).
Proof.
  revert frames. induction stage_frames as [|p rest IH]; intros frames; simpl.
  - apply preserves_ret.
  - apply preserves_bind; [|done]. unfold signal_route, signal. keeps.
Qed.

Lemma preserves_fan_out stage_frames : preserves channel_inv (fan_out stage_frames).
Proof.
  unfold fan_out. apply preserves_bind; [keeps|intros _].
  apply preserves_bind; [apply preserves_fan_out_loop|intros ?].
  unfold signal_route, signal. keeps.
Qed.

Lemma preserves_tick_body : preserves channel_inv tick_body.
Proof.
  unfold tick_body, invoke, graph_set_value, state_clear,
    state_insert_or_assign, state_assign.
  repeat lazymatch goal with
    | |- preserves _ (invoke_timecode_listeners _) =>
        apply preserves_invoke_timecode_listeners
    | |- preserves _ (fan_out _) => apply preserves_fan_out
    | |- preserves _ (_ ≫= _) => apply preserves_bind; [|intros ?]
    | |- preserves _ _ => progress keeps
    end.
Qed.

Lemma preserves_route index : preserves channel_inv (route index).
Proof.
  intros w r w' [Hreg [Hdist Hbound]] Hrun.
  destruct (alive_or_not w index) as [(a & r0 & Halive)|Hdead].
  - destruct (route_alive_run _ _ _ _ Halive) as (n & Hn & Hrun').
    rewrite Hrun' in Hrun. injection Hrun as _ <-.
    split; [done|]. split; [done|]. fields. by rewrite length_insert.
  - rewrite (route_fresh_run _ _ Hdead) in Hrun. injection Hrun as _ <-.
    split; [done|]. split; fields.
    + intros i j a. rewrite !lookup_insert.
      repeat case_decide; subst; try done.
      * intros [= <-] Hj. apply Hbound in Hj. lia.
      * intros Hi [= <-]. apply Hbound in Hi. lia.
      * apply Hdist.
    + intros i a. rewrite lookup_insert, length_app. simpl.
      case_decide; [intros [= <-]; lia|]. intros Hi%Hbound. lia.
Qed.

Lemma preserves_release a : preserves channel_inv (release a).
Proof.
  apply preserves_modify. intros w [Hreg [Hdist Hbound]].
  destruct (route_heap w !! a) as [[r [|n]]|]; try done.
  split; [done|]. split; [done|]. fields. by rewrite length_insert.
Qed.

Lemma preserves_api c : preserves channel_inv (api c).
Proof.
  destruct c; simpl.
  - apply preserves_bind; [apply preserves_add_timecode_listener|intros ?; keeps].
  - apply preserves_drop_token.
  - apply preserves_bind; [apply preserves_route|intros ?; keeps].
  - apply preserves_release.
  - unfold set_video_format_desc. keeps.
  - unfold loop_iteration. apply preserves_try_catch;
      [apply preserves_tick_body | intros e; keeps].
  - keeps.
Qed.

Lemma reachable_inv w : reachable w → channel_inv w.
Proof.
  induction 1 as [|w c r w' _ IH Hrun].
  - split; [|split]; try done. by split_and!; [| |intros k [? ?]].
  - by eapply preserves_api.
Qed.

(** C9: on a channel that has handed out fewer than 2^63 ids, a
    registration gets an id that is larger than every id handed out before
    and is not a key of the table, and enters the table under it; dropping
    the token erases the entry under that id and changes no other entry. *)
Theorem listener_ids_fresh (w : impl) (l : listener) :
  reachable w →
  Z.of_nat (length (registered (trace w))) ≤ INT64_MAX →
  ∃ t w',
    add_timecode_listener l w = Some (Returned t, w') ∧
    registered (trace w') = registered (trace w) ++ [token_id t] ∧
    (∀ id, id ∈ registered (trace w) → id < token_id t) ∧
    timecode_listeners_ w !! token_id t = None ∧
    timecode_listeners_ w' = <[token_id t := l]> (timecode_listeners_ w) ∧
    ∀ w2, ∃ w3,
      drop_token t w2 = Some (Returned tt, w3) ∧
      timecode_listeners_ w3 = delete (token_id t) (timecode_listeners_ w2) ∧
      timecode_listeners_ w3 !! token_id t = None ∧
      ∀ id, id ≠ token_id t →
            timecode_listeners_ w3 !! id = timecode_listeners_ w2 !! id.
Proof.
  intros [(Hids & Hlast & Htbl) _]%reachable_inv Hfew.
  unfold INT64_MAX in Hfew.
  assert (last_timecode_listener_id w = Z.of_nat (length (registered (trace w))))
    as Hnext by (rewrite Hlast; apply wrap64_small; lia).
  assert (∀ id, id ∈ registered (trace w) → id < last_timecode_listener_id w)
    as Hbelow.
  { intros id. rewrite Hids, Hnext. intros (k & -> & Hk)%list_elem_of_fmap.
    apply elem_of_seq in Hk. rewrite wrap64_small; lia. }
  assert (timecode_listeners_ w !! last_timecode_listener_id w = None) as Hfree.
  { destruct (timecode_listeners_ w !! last_timecode_listener_id w) eqn:Hl;
      [|done].
    assert (last_timecode_listener_id w < last_timecode_listener_id w); [|lia].
    apply Hbelow, Htbl. by rewrite Hl. }
  eexists _, _. split; [apply add_timecode_listener_run|]. fields. simpl.
  split_and!; try done.
  - by rewrite registered_app.
  - unfold umap_insert. by rewrite Hfree.
  - intros w2. eexists. split; [apply drop_token_run|]. fields. simpl.
    split_and!; [done | apply lookup_delete_eq |].
    intros id Hid. by apply lookup_delete_ne.
Qed.

(** * Further facts about the channel *)

(** ** Code that leaves a property alone *)

Lemma preserves_run_ops_of I ops :
  (∀ l, preserves I (add_timecode_listener l)) →
  (∀ t, preserves I (drop_token t)) →
  preserves I (run_ops ops).
Proof.
  intros Hadd Hdrop. induction ops as [|[l|t] ops IH]; simpl.
  - apply preserves_ret.
  - apply preserves_bind; [apply Hadd|done].
  - apply preserves_bind; [apply Hdrop|done].
Qed.

Lemma preserves_fan_out_loop_of I stage_frames frames :
  (∀ key frame, preserves I (signal_route key frame)) →
  preserves I (fan_out_loop stage_frames frames).
Proof.
  intros Hsignal. revert frames.
  induction stage_frames as [|p rest IH]; intros frames; simpl.
  - apply preserves_ret.
  - apply preserves_bind; [apply Hsignal|done].
Qed.

(** Code put together from pieces that keep a property which does not
    depend on the fields they write. *)
Ltac leaves_alone :=
  repeat lazymatch goal with
    | |- preserves _ (_ ≫= _) => apply preserves_bind; [|intros ?]
    | |- preserves _ (mret _) => apply preserves_ret
    | |- preserves _ (gets _) => apply preserves_gets
    | |- preserves _ (defined _) => apply preserves_defined
    | |- preserves _ (raise_of _) => apply preserves_raise_of
    | |- preserves _ (throw _) => apply preserves_throw
    | |- preserves _ (try_catch _ _) => apply preserves_try_catch; [|intros ?]
    | |- preserves _ (for_each _ _) => apply preserves_for_each; intros ?
    | |- preserves _ (run_ops _) => apply preserves_run_ops_of; intros ?
    | |- preserves _ (fan_out_loop _ _) =>
        apply preserves_fan_out_loop_of; intros ? ?
    | |- preserves _ (add_timecode_listener _) => unfold add_timecode_listener
    | |- preserves _ (drop_token _) => unfold drop_token
    | |- preserves _ (signal_route _ _) => unfold signal_route
    | |- preserves _ (signal _ _ _ _) => unfold signal
    | |- preserves _ (emit _) =>
        apply preserves_modify; let Hinv := fresh in intros ? Hinv; exact Hinv
    | |- preserves _ (modify _) =>
        apply preserves_modify; let Hinv := fresh in
        intros ? Hinv; first [exact Hinv | repeat case_match; exact Hinv]
    | |- preserves _ (match ?x with _ => _ end) => destruct x
    | |- preserves _ (let _ := _ in _) => cbv zeta
    end.

Lemma loop_frame_refl w : loop_frame w w.
Proof. by repeat split. Qed.

Lemma loop_iteration_keeps_frame w0 : preserves (loop_frame w0) loop_iteration.
Proof.
  unfold loop_iteration, tick_body, invoke, graph_set_value, state_clear,
    state_insert_or_assign, state_assign,
    invoke_timecode_listeners, invoke_listener, fan_out.
  leaves_alone.
Qed.

Lemma loop_iteration_returns w r w' :
  loop_iteration w = Some (r, w') → r = Returned tt.
Proof.
  unfold loop_iteration, try_catch.
  destruct (tick_body w) as [[[[]|e] w1]|]; [by intros [= <- _] | | done].
  by intros [= <- _].
Qed.

(** X1: a turn of the loop, whether its tick fails or not, never throws and
    never changes the index, the stored format, the tick callback, the route
    table, the routes or the abort flag; [index()] and [print()] answer after
    it as before. *)
Theorem loop_iteration_frame (w w' : impl) (r : outcome unit) :
  loop_iteration w = Some (r, w') →
  r = Returned tt ∧ loop_frame w w' ∧
  (∃ i, index w = Some (Returned i, w) ∧ index w' = Some (Returned i, w')) ∧
  (∃ label, print w = Some (Returned label, w) ∧
            print w' = Some (Returned label, w')).
Proof.
  intros Hrun.
  pose proof (loop_iteration_keeps_frame w w r w' (loop_frame_refl w) Hrun)
    as Hframe.
  destruct Hframe as (Hi & Hfd & Hframe).
  split_and!; [by eapply loop_iteration_returns | done | |].
  - exists (index_ w). unfold index, gets. by rewrite Hi.
  - eexists. unfold print, get_video_format_desc.
    rewrite !bind_run. unfold gets, mret, M_ret. rewrite !bind_run.
    by rewrite Hi, Hfd.
Qed.

(** ** The end of the thread *)

Lemma thread_main_aborted n w :
  abort_request_ w = true → thread_main n w = Some (Returned tt, w).
Proof.
  intros Hab. destruct n as [|n]; [done|].
  cbn [thread_main]. rewrite bind_run. unfold gets. by rewrite Hab.
Qed.

(** ** The format setter, however it ends *)

Lemma set_video_format_desc_run (format_desc : video_format_desc) (w : impl) :
  ∃ r w',
    set_video_format_desc format_desc w = Some (r, w') ∧
    format_desc_ w' = format_desc ∧
    audio_cadence_ w' = audio_cadence format_desc.
Proof.
  unfold set_video_format_desc. rewrite !bind_run. unfold modify, gets.
  rewrite !bind_run. fields. rewrite raise_of_run.
  destruct (timecode_change_format format_desc (timecode_ w)) as [[[]|e] tcs];
    cbn [fst snd].
  - rewrite !bind_run. fields. rewrite raise_of_run.
    by eexists _, _.
  - by eexists _, _.
Qed.

(** X3: the setter does not roll back.  The stored format and the owned
    cadence are replaced before [change_format] is called, so they are the
    new ones, and the getter returns the new format, however the setter
    ends; when [change_format] throws the stage is not cleared, and when it
    returns the setter ends as [clear] ends. *)
Theorem set_format_not_rolled_back (format_desc : video_format_desc) (w : impl) :
  ∃ r w',
    set_video_format_desc format_desc w = Some (r, w') ∧
    format_desc_ w' = format_desc ∧
    audio_cadence_ w' = audio_cadence format_desc ∧
    get_video_format_desc w' = Some (Returned format_desc, w') ∧
    timecode_ w' = (timecode_change_format format_desc (timecode_ w)).2 ∧
    match (timecode_change_format format_desc (timecode_ w)).1 with
    | Threw e => r = Threw e ∧ stage_ w' = stage_ w
    | Returned _ =>
        r = (stage_clear (stage_ w)).1 ∧ stage_ w' = (stage_clear (stage_ w)).2
    end.
Proof.
  unfold set_video_format_desc. rewrite !bind_run. unfold modify, gets.
  rewrite !bind_run. fields. rewrite raise_of_run.
  destruct (timecode_change_format format_desc (timecode_ w)) as [[[]|e] tcs];
    cbn [fst snd].
  - rewrite !bind_run. fields. rewrite raise_of_run.
    eexists _, _. split; [reflexivity|]. fields.
    unfold get_video_format_desc, gets. fields. by split_and!.
  - eexists _, _. split; [reflexivity|]. fields.
    unfold get_video_format_desc, gets. fields. by split_and!.
Qed.

(** ** The cadence on every channel *)

Lemma cadence_in_phase_blind w w' :
  format_desc_ w' = format_desc_ w → audio_cadence_ w' = audio_cadence_ w →
  cadence_in_phase w → cadence_in_phase w'.
Proof. intros Hfd Hc [k Hk]. exists k. by rewrite Hfd, Hc. Qed.

Lemma preserves_cadence_tick_body : preserves cadence_in_phase tick_body.
Proof.
  intros w r w' [k Hk] Hrun. pose proof (tick_body_spec w) as Hspec.
  rewrite Hrun in Hspec.
  destruct Hspec as (rot & nb & new & Hrot & _ & _ & _ & Hc & Hfd & _).
  exists (k + 1)%nat. rewrite Hc, Hfd, cadence_after_add, <- Hk.
  simpl. by rewrite Hrot.
Qed.

Lemma preserves_cadence_api c : preserves cadence_in_phase (api c).
Proof.
  destruct c; simpl.
  - unfold cadence_in_phase. leaves_alone.
  - unfold cadence_in_phase. leaves_alone.
  - unfold cadence_in_phase, route. leaves_alone.
  - unfold cadence_in_phase, release. leaves_alone.
  - intros w r w' _ Hrun.
    destruct (set_video_format_desc_run format_desc w)
      as (r' & w'' & Hrun' & Hfd & Hc).
    rewrite Hrun in Hrun'. injection Hrun' as _ <-.
    exists 0%nat. by rewrite Hc, Hfd.
  - unfold loop_iteration. apply preserves_try_catch;
      [apply preserves_cadence_tick_body|].
    intros e. unfold cadence_in_phase. leaves_alone.
  - unfold cadence_in_phase. leaves_alone.
Qed.

Lemma reachable_cadence w : reachable w → cadence_in_phase w.
Proof.
  induction 1 as [|w c r w' _ IH Hrun]; [by exists 0%nat|].
  by eapply preserves_cadence_api.
Qed.

(** X4: on every channel that the constructor and the interface can
    produce, the owned cadence vector is the cadence of the stored format
    rotated some number of times; it has the same elements and the same
    length. *)
Theorem cadence_stays_in_phase (w : impl) :
  reachable w →
  cadence_in_phase w ∧
  audio_cadence_ w ≡ₚ audio_cadence (format_desc_ w) ∧
  length (audio_cadence_ w) = length (audio_cadence (format_desc_ w)).
Proof.
  intros [k Hk]%reachable_cadence.
  split; [by exists k|]. rewrite Hk. split; by rewrite cadence_after_perm.
Qed.

(** X5: a channel whose stored format has a cadence that is not empty never
    rotates or indexes an empty vector: every number of turns of its loop is
    defined and ends without an exception. *)
Theorem loop_never_undefined (w : impl) (n : nat) :
  reachable w →
  audio_cadence (format_desc_ w) ≠ [] →
  ∃ w', thread_main n w = Some (Returned tt, w').
Proof.
  intros [k Hk]%reachable_cadence Hfd.
  destruct (abort_request_ w) eqn:Hab.
  - exists w. by apply thread_main_aborted.
  - destruct (thread_main_samples n w) as (w' & new & Hrun & _); try done.
    + rewrite Hk. by apply cadence_after_nonempty.
    + by exists w'.
Qed.

(** ** The listener registry between ticks *)

Lemma registry_next w :
  channel_inv w →
  Z.of_nat (length (registered (trace w))) ≤ INT64_MAX →
  last_timecode_listener_id w = Z.of_nat (length (registered (trace w))) ∧
  timecode_listeners_ w !! last_timecode_listener_id w = None.
Proof.
  intros [(Hids & Hlast & Htbl) _] Hfew. unfold INT64_MAX in Hfew.
  assert (last_timecode_listener_id w = Z.of_nat (length (registered (trace w))))
    as Hnext by (rewrite Hlast; apply wrap64_small; lia).
  split; [done|].
  destruct (timecode_listeners_ w !! last_timecode_listener_id w) eqn:Hl; [|done].
  assert (last_timecode_listener_id w ∈ registered (trace w)) as Hin
    by (apply Htbl; by rewrite Hl).
  rewrite Hids, Hnext in Hin.
  apply list_elem_of_fmap in Hin as (k & Hk & Hin).
  apply elem_of_seq in Hin. rewrite wrap64_small in Hk; lia.
Qed.

Lemma wrap64_succ_ne x : - 2 ^ 63 ≤ x < 2 ^ 63 → wrap64 (x + 1) ≠ x.
Proof.
  intros Hx. destruct (decide (x = 2 ^ 63 - 1)) as [->|Hne]; [done|].
  rewrite wrap64_small; lia.
Qed.

(** X6: registering a listener and dropping its token leaves the table as
    it was, but not the id counter: the id is not handed out again, the next
    registration gets another one. *)
Theorem add_then_drop_restores (w : impl) (l l' : listener) :
  reachable w →
  Z.of_nat (length (registered (trace w))) ≤ INT64_MAX →
  ∃ t w1 w2 t' w3,
    add_timecode_listener l w = Some (Returned t, w1) ∧
    drop_token t w1 = Some (Returned tt, w2) ∧
    timecode_listeners_ w2 = timecode_listeners_ w ∧
    add_timecode_listener l' w2 = Some (Returned t', w3) ∧
    token_id t' ≠ token_id t.
Proof.
  intros Hinv%reachable_inv Hfew.
  destruct (registry_next w Hinv Hfew) as [Hnext Hfree].
  eexists _, _, _, _, _.
  split; [apply add_timecode_listener_run|].
  split; [apply drop_token_run|]. fields. cbn [token_id].
  split_and!.
  - unfold umap_insert. rewrite Hfree. by apply delete_insert_id.
  - apply add_timecode_listener_run.
  - fields. cbn [token_id]. apply wrap64_succ_ne.
    rewrite Hnext. unfold INT64_MAX in Hfew. lia.
Qed.

(** ** The registry after the listeners have run *)

Lemma run_ops_registry ops w :
  ∃ w', run_ops ops w = Some (Returned tt, w') ∧
        registry_of w' = foldl apply_op (registry_of w) ops.
Proof.
  revert w. induction ops as [|[l|t] ops IH]; intros w.
  - by exists w.
  - cbn [run_ops]. rewrite bind_run, add_timecode_listener_run.
    match goal with |- context [run_ops ops ?w1] =>
      destruct (IH w1) as (w' & -> & Hreg) end.
    exists w'. split; [done|]. by rewrite Hreg.
  - cbn [run_ops]. rewrite bind_run, drop_token_run.
    match goal with |- context [run_ops ops ?w1] =>
      destruct (IH w1) as (w' & -> & Hreg) end.
    exists w'. split; [done|]. by rewrite Hreg.
Qed.

Lemma invoke_listener_registry tc entry w :
  ∃ w', invoke_listener tc entry w = Some (Returned tt, w') ∧
        registry_of w' =
        foldl apply_op (registry_of w) (listener_call entry.2 tc).2.
Proof.
  unfold invoke_listener, try_catch. cbv zeta.
  destruct (run_ops_registry (listener_call entry.2 tc).2 w)
    as (w1 & Hrun & Hreg).
  rewrite bind_run, Hrun. rewrite bind_run. unfold emit, modify.
  rewrite raise_of_run.
  destruct (listener_call entry.2 tc).1 as [[]|e]; eexists; by split.
Qed.

Lemma for_each_listeners_registry tc entries w :
  ∃ w', for_each (invoke_listener tc) entries w = Some (Returned tt, w') ∧
        registry_of w' = foldl apply_op (registry_of w) (invocation_ops tc entries).
Proof.
  revert w. induction entries as [|entry entries IH]; intros w.
  - by exists w.
  - rewrite for_each_cons, bind_run.
    destruct (invoke_listener_registry tc entry w) as (w1 & -> & Hreg1).
    destruct (IH w1) as (w2 & -> & Hreg2).
    exists w2. split; [done|].
    unfold invocation_ops. rewrite fmap_cons. cbn [concat].
    by rewrite foldl_app, <- Hreg1.
Qed.

(** X8: an invocation of the listeners leaves the id counter and the table
    as the registrations and token drops of the called listeners make them,
    applied in the order of the calls to the counter and the table of
    before; it changes them in no other way.  What a listener registers or
    erases takes effect for the next invocation, not for the one that is
    running, which calls the entries of its snapshot. *)
Theorem invocation_applies_operations (tc : frame_timecode) (w : impl) :
  ∃ w' L,
    invoke_timecode_listeners tc w = Some (Returned tt, w') ∧
    trace w' = trace w ++
      ev_listeners tc (umap_entries (timecode_listeners_ w)).*1 :: L ∧
    (listener_calls L).*1.*1 = (umap_entries (timecode_listeners_ w)).*1 ∧
    registry_of w' =
      foldl apply_op (registry_of w)
        (invocation_ops tc (umap_entries (timecode_listeners_ w))).
Proof.
  destruct (invoke_timecode_listeners_run tc w)
    as (w' & L & Hrun & _ & Htr & _ & Hcalls).
  exists w', L. split_and!; try done.
  - rewrite Hcalls, <- !list_fmap_compose. by apply list_fmap_ext.
  - unfold invoke_timecode_listeners in Hrun.
    rewrite bind_run in Hrun. unfold gets in Hrun.
    rewrite bind_run in Hrun. unfold emit, modify in Hrun.
    match type of Hrun with for_each _ ?es ?w1 = _ =>
      destruct (for_each_listeners_registry tc es w1) as (w2 & Hrun2 & Hreg) end.
    rewrite Hrun in Hrun2. injection Hrun2 as <-. exact Hreg.
Qed.

(** ** The calls of a tick and what they leave *)

Ltac in_events :=
  repeat first [ by left | right | apply elem_of_app; right ].

Lemma invoke_timecode_listeners_account tc w :
  ∃ w' L, invoke_timecode_listeners tc w = Some (Returned tt, w') ∧
          registry_frame w w' ∧
          trace w' = trace w ++
            ev_listeners tc (umap_entries (timecode_listeners_ w)).*1 :: L ∧
          listeners_ran tc (timecode_listeners_ w) L ∧
          registry_of w' =
            foldl apply_op (registry_of w)
              (invocation_ops tc (umap_entries (timecode_listeners_ w))).
Proof.
  destruct (invoke_timecode_listeners_run tc w)
    as (w' & L & Hrun & Hfr & Htr & HL).
  exists w', L. split_and!; try done.
  unfold invoke_timecode_listeners in Hrun.
  rewrite bind_run in Hrun. unfold gets in Hrun.
  rewrite bind_run in Hrun. unfold emit, modify in Hrun.
  match type of Hrun with for_each _ ?es ?w1 = _ =>
    destruct (for_each_listeners_registry tc es w1) as (w2 & Hrun2 & Hreg) end.
  rewrite Hrun in Hrun2. injection Hrun2 as <-. exact Hreg.
Qed.

Ltac reached Hprod Hcommit Hn0 Hmix :=
  let Hs := fresh in let Hm := fresh in
  intros ? ? ? ? [= <- <-] Hs; rewrite Hprod in Hs; injection Hs as <- <-;
  split_and!; [in_events | done |];
  intros ? ? ? [= <-]; rewrite Hcommit; intros [= <- <-];
  eexists; split; [reflexivity|]; intros ? ? Hm;
  rewrite Hmix in Hm; injection Hm as <- <-; split; [in_events | done].

Lemma tick_body_calls w :
  match tick_body w with
  | Some (r, w') =>
      ∃ nb init new,
        audio_cadence_ w = init ++ [nb] ∧ audio_cadence_ w' = nb :: init ∧
        trace w' = trace w ++ ev_snapshot (format_desc_ w) nb :: new ∧
        (∀ tcp tcs rp stg,
           timecode_tick false (timecode_ w) = (Returned tcp, tcs) →
           stage_call (format_desc_ w) nb (stage_ w) = (rp, stg) →
           ev_produce (format_desc_ w) nb rp ∈ new ∧ stage_ w' = stg ∧
           ∀ frames tc tcs',
             rp = Returned frames →
             timecode_tick true tcs = (Returned tc, tcs') →
             ∃ n0,
               head (audio_cadence (format_desc_ w)) = Some n0 ∧
               ∀ rm mx,
                 mixer_call frames (format_desc_ w) n0 (mixer_ w) = (rm, mx) →
                 ev_mix frames (format_desc_ w) n0 rm ∈ new ∧ mixer_ w' = mx)
  | None => True
  end.
Proof.
  unfold tick_body. repeat (rewrite bind_run; simpl).
  destruct (rotate_last (audio_cadence_ w)) as [rot|] eqn:Hrot; simpl; [|done].
  destruct (rotate_last_some _ _ Hrot) as (nb & init & Hcad & ->). simpl.
  repeat (rewrite bind_run; simpl). rewrite invoke_run. simpl.
  destruct (timecode_tick false (timecode_ w)) as [[tcp|e] tcs] eqn:Hpred; simpl.
  2:{ eexists nb, init, _. split_and!; try done.
      by rewrite <- !app_assoc. }
  rewrite bind_run, invoke_run. simpl.
  destruct (stage_call (format_desc_ w) nb (stage_ w)) as [[frames|e] stg]
    eqn:Hprod; simpl.
  2:{ eexists nb, init, _. split_and!; try done.
      - by rewrite <- !app_assoc.
      - intros ? ? ? ? [= <- <-] Hs. rewrite Hprod in Hs. injection Hs as <- <-.
        split_and!; [in_events | done | done]. }
  repeat (rewrite bind_run; simpl). rewrite invoke_run. simpl.
  destruct (timecode_tick true tcs) as [[tc|e] tcs'] eqn:Hcommit; simpl.
  2:{ eexists nb, init, _. split_and!; try done.
      - by rewrite <- !app_assoc.
      - intros ? ? ? ? [= <- <-] Hs. rewrite Hprod in Hs. injection Hs as <- <-.
        split_and!; [in_events | done |].
        intros ? ? ? [= <-]. by rewrite Hcommit. }
  rewrite bind_run.
  match goal with |- context [invoke_timecode_listeners tc ?w1] =>
    destruct (invoke_timecode_listeners_run tc w1)
      as (w2 & L & -> & Hfr & Htr & HL) end.
  simpl in Htr, HL.
  assert (audio_cadence_ w2 = nb :: init) as Hc2 by (by rewrite Hfr).
  assert (stage_ w2 = stg) as Hg2 by (by rewrite Hfr).
  assert (mixer_ w2 = mixer_ w) as Hm2 by (by rewrite Hfr).
  rewrite bind_run.
  destruct (head (audio_cadence (format_desc_ w))) as [n0|] eqn:Hn0; simpl;
    [|done].
  rewrite bind_run, invoke_run. simpl. rewrite Hm2.
  destruct (mixer_call frames (format_desc_ w) n0 (mixer_ w))
    as [[mixed|e] mx] eqn:Hmix; simpl.
  2:{ eexists nb, init, _. rewrite Htr. split_and!; try done.
      - by rewrite <- !app_assoc.
      - reached Hprod Hcommit Hn0 Hmix. }
  repeat (rewrite bind_run; simpl). rewrite invoke_run. simpl.
  match goal with |- context [output_call ?a ?b ?c ?d] =>
    destruct (output_call a b c d) as [[[]|e] out] eqn:Hout; simpl end.
  2:{ eexists nb, init, _. rewrite Htr. split_and!; try done.
      - by rewrite <- !app_assoc.
      - reached Hprod Hcommit Hn0 Hmix. }
  repeat (rewrite bind_run; simpl). rewrite fan_out_run. simpl.
  match goal with |- context [until_escape ?a] =>
    destruct (until_escape a) as [S [e|]] eqn:Hfan; simpl end.
  { eexists nb, init, _. rewrite Htr. split_and!; try done.
    - by rewrite <- !app_assoc.
    - reached Hprod Hcommit Hn0 Hmix. }
  repeat (rewrite bind_run; simpl). rewrite invoke_run. simpl.
  match goal with |- context [tick_ w2 ?st (osc w2)] =>
    destruct (tick_ w2 st (osc w2)) as [[[]|e] snk] eqn:Hpub; simpl
  end;
    (eexists nb, init, _; rewrite Htr; split_and!; try done;
     [by rewrite <- !app_assoc | reached Hprod Hcommit Hn0 Hmix]).
Qed.

Lemma tick_body_returned w w' :
  tick_body w = Some (Returned tt, w') →
      ∃ nb init tcp tcs frames stg tc tcs' L n0 mixed mx out S snk,
           audio_cadence_ w = init ++ [nb] ∧ audio_cadence_ w' = nb :: init ∧
           timecode_tick false (timecode_ w) = (Returned tcp, tcs) ∧
           stage_call (format_desc_ w) nb (stage_ w) = (Returned frames, stg) ∧
           timecode_tick true tcs = (Returned tc, tcs') ∧
           listeners_ran tc (timecode_listeners_ w) L ∧
           registry_of w' =
             foldl apply_op (registry_of w)
               (invocation_ops tc (umap_entries (timecode_listeners_ w))) ∧
           head (audio_cadence (format_desc_ w)) = Some n0 ∧
           mixer_call frames (format_desc_ w) n0 (mixer_ w) = (Returned mixed, mx) ∧
           output_call tc mixed (format_desc_ w) (output_ w) = (Returned tt, out) ∧
           until_escape (fan_out_events (routes_ w) (route_heap w) frames)
             = (S, None) ∧
           tick_ w (published_state (state_ w) stg mx out tc tcs') (osc w)
             = (Returned tt, snk) ∧
           trace w' = trace w ++
             [ev_snapshot (format_desc_ w) nb;
              ev_predict (Returned tcp);
              ev_produce (format_desc_ w) nb (Returned frames);
              ev_commit (Returned tc);
              ev_listeners tc (umap_entries (timecode_listeners_ w)).*1] ++ L ++
             [ev_mix frames (format_desc_ w) n0 (Returned mixed);
              ev_consume tc mixed (format_desc_ w) (Returned tt);
              ev_fanout frames] ++ S ++
             [ev_publish (published_state (state_ w) stg mx out tc tcs')
                (Returned tt)] ∧
           state_ w' = published_state (state_ w) stg mx out tc tcs' ∧
           timecode_ w' = tcs' ∧ stage_ w' = stg ∧ mixer_ w' = mx ∧
           output_ w' = out ∧ osc w' = snk.
Proof.
  unfold tick_body. repeat (rewrite bind_run; simpl).
  destruct (rotate_last (audio_cadence_ w)) as [rot|] eqn:Hrot; simpl; [|done].
  destruct (rotate_last_some _ _ Hrot) as (nb & init & Hcad & ->). simpl.
  repeat (rewrite bind_run; simpl). rewrite invoke_run. simpl.
  destruct (timecode_tick false (timecode_ w)) as [[tcp|e] tcs] eqn:Hpred; simpl;
    [|done].
  rewrite bind_run, invoke_run. simpl.
  destruct (stage_call (format_desc_ w) nb (stage_ w)) as [[frames|e] stg]
    eqn:Hprod; simpl; [|done].
  repeat (rewrite bind_run; simpl). rewrite invoke_run. simpl.
  destruct (timecode_tick true tcs) as [[tc|e] tcs'] eqn:Hcommit; simpl; [|done].
  rewrite bind_run.
  match goal with |- context [invoke_timecode_listeners tc ?w1] =>
    destruct (invoke_timecode_listeners_account tc w1)
      as (w2 & L & -> & Hfr & Htr & HL & Hreg) end.
  simpl in Htr, HL. unfold registry_of in Hreg. simpl in Hreg.
  assert (audio_cadence_ w2 = nb :: init) as Hc2 by (by rewrite Hfr).
  assert (routes_ w2 = routes_ w) as Hr2 by (by rewrite Hfr).
  assert (route_heap w2 = route_heap w) as Hh2 by (by rewrite Hfr).
  assert (state_ w2 =
            monitor_insert_or_assign "stage" (stage_state stg)
              (monitor_clear (state_ w))) as Hs2 by (by rewrite Hfr).
  assert (timecode_ w2 = tcs') as Ht2 by (by rewrite Hfr).
  assert (stage_ w2 = stg) as Hg2 by (by rewrite Hfr).
  assert (mixer_ w2 = mixer_ w) as Hm2 by (by rewrite Hfr).
  assert (output_ w2 = output_ w) as Ho2 by (by rewrite Hfr).
  assert (tick_ w2 = tick_ w) as Hk2 by (by rewrite Hfr).
  assert (osc w2 = osc w) as Hosc2 by (by rewrite Hfr).
  rewrite bind_run.
  destruct (head (audio_cadence (format_desc_ w))) as [n0|] eqn:Hn0; simpl;
    [|done].
  rewrite bind_run, invoke_run. simpl. rewrite Hm2.
  destruct (mixer_call frames (format_desc_ w) n0 (mixer_ w))
    as [[mixed|e] mx] eqn:Hmix; simpl; [|done].
  repeat (rewrite bind_run; simpl). rewrite invoke_run. simpl. rewrite Ho2.
  destruct (output_call tc mixed (format_desc_ w) (output_ w))
    as [[[]|e] out] eqn:Hout; simpl; [|done].
  repeat (rewrite bind_run; simpl). rewrite fan_out_run. simpl.
  rewrite Hr2, Hh2.
  destruct (until_escape (fan_out_events (routes_ w) (route_heap w) frames))
    as [S [e|]] eqn:Hfan; simpl; [done|].
  repeat (rewrite bind_run; simpl). rewrite invoke_run. simpl.
  rewrite Hs2, Ht2, Hk2, Hosc2.
  change (monitor_assign "timecode/source" (timecode_source_name tcs')
            (monitor_assign "timecode" (timecode_string tc)
               (monitor_insert_or_assign "output" (output_state out)
                  (monitor_insert_or_assign "mixer" (mixer_state mx)
                     (monitor_insert_or_assign "stage" (stage_state stg)
                        (monitor_clear (state_ w)))))))
    with (published_state (state_ w) stg mx out tc tcs').
  destruct (tick_ w (published_state (state_ w) stg mx out tc tcs') (osc w))
    as [[[]|e] snk] eqn:Hpub; simpl; [|done].
  unfold graph_set_value, modify. simpl. intros [= <-].
  exists nb, init, tcp, tcs, frames, stg, tc, tcs', L, n0, mixed, mx, out, S, snk.
  unfold registry_of. simpl. rewrite Htr.
  split_and!; first [assumption | reflexivity | idtac].
  rewrite <- !app_assoc. simpl. by rewrite <- ?app_assoc.
Qed.

(** ** Stages of a tick: what each one is given and leaves *)

(** C3: a tick that no exception leaves goes through its nine stages in the
    fixed order, none omitted.  The cadence vector of the channel is rotated,
    its last element becoming the first; the timecode is ticked without
    commit; the stage is called with the stored format and the new front of
    the cadence; the timecode is ticked with commit; every listener of the
    table is called with the committed timecode, and the registry is left as
    their operations make it; the mixer is called with the produced frames;
    the output is called with the mixed frame; the live routes are
    signalled; the tick callback is called with the monitor state built from
    the states of stage, mixer and output and the timecode.  The record of
    the tick is the record of these calls in this order, and the collaborators
    are left in the states in which the calls left them. *)
Theorem tick_stage_order (w w' : impl) :
  tick_body w = Some (Returned tt, w') →
  ∃ nb init tcp tcs frames stg tc tcs' L n0 mixed mx out S snk,
    audio_cadence_ w = init ++ [nb] ∧ audio_cadence_ w' = nb :: init ∧
    timecode_tick false (timecode_ w) = (Returned tcp, tcs) ∧
    stage_call (format_desc_ w) nb (stage_ w) = (Returned frames, stg) ∧
    timecode_tick true tcs = (Returned tc, tcs') ∧
    listener_calls L =
      (λ p, (p.1, tc, (listener_call p.2 tc).1))
        <$> umap_entries (timecode_listeners_ w) ∧
    registry_of w' =
      foldl apply_op (registry_of w)
        (invocation_ops tc (umap_entries (timecode_listeners_ w))) ∧
    head (audio_cadence (format_desc_ w)) = Some n0 ∧
    mixer_call frames (format_desc_ w) n0 (mixer_ w) = (Returned mixed, mx) ∧
    output_call tc mixed (format_desc_ w) (output_ w) = (Returned tt, out) ∧
    until_escape (fan_out_events (routes_ w) (route_heap w) frames) = (S, None) ∧
    tick_ w (published_state (state_ w) stg mx out tc tcs') (osc w)
      = (Returned tt, snk) ∧
    trace w' = trace w ++
      [ev_snapshot (format_desc_ w) nb;
       ev_predict (Returned tcp);
       ev_produce (format_desc_ w) nb (Returned frames);
       ev_commit (Returned tc);
       ev_listeners tc (umap_entries (timecode_listeners_ w)).*1] ++ L ++
      [ev_mix frames (format_desc_ w) n0 (Returned mixed);
       ev_consume tc mixed (format_desc_ w) (Returned tt);
       ev_fanout frames] ++ S ++
      [ev_publish (published_state (state_ w) stg mx out tc tcs')
         (Returned tt)] ∧
    state_ w' = published_state (state_ w) stg mx out tc tcs' ∧
    timecode_ w' = tcs' ∧ stage_ w' = stg ∧ mixer_ w' = mx ∧
    output_ w' = out ∧ osc w' = snk ∧
    Forall in_listener_loop L ∧ Forall is_signal S ∧
    stages (drop (length (trace w)) (trace w')) = all_stages.
Proof.
  intros Hrun.
  destruct (tick_body_returned w w' Hrun)
    as (nb & init & tcp & tcs & frames & stg & tc & tcs' & L & n0 & mixed
        & mx & out & S & snk & Hcad & Hcad' & Hpred & Hprod & Hcommit
        & [HL Hcalls] & Hreg & Hn0 & Hmix & Hout & Hfan & Hpub & Htr & Hrest).
  exists nb, init, tcp, tcs, frames, stg, tc, tcs', L, n0, mixed, mx, out, S, snk.
  destruct Hrest as (Hst & Htc & Hstg & Hmx & Hout' & Hosc).
  split_and!; try done.
  - by eapply fanned_out_signals.
  - pose proof (tick_body_spec w) as Hspec. rewrite Hrun in Hspec.
    destruct Hspec as (rot & nb0 & new & _ & _ & Htick & Htr0 & _).
    destruct (tick_run_shape _ _ _ _ Htick)
      as (pre & final & k & _ & _ & _ & _ & Hstages & Hk).
    rewrite (Hk tt eq_refl) in Hstages.
    rewrite Htr0, drop_app_length. exact Hstages.
Qed.

(** ** Which calls a tick makes *)

(** C10: in every tick the stage is called with the front of the rotated
    cadence of the channel and the mixer with the first element of the
    cadence of the format descriptor, which no tick changes; when the two
    differ, stage and mixer are given different sample counts.  The calls
    are made: once the predicting tick has returned the stage is called with
    the rotated front, and once the stage and the committing tick have
    returned the mixer is called with the first element of the descriptor's
    cadence; both are left in the state their call leaves them in. *)
Theorem mixer_samples_not_rotated (w w' : impl) (r : outcome unit) :
  tick_body w = Some (r, w') →
  ∃ nb init,
    audio_cadence_ w = init ++ [nb] ∧ audio_cadence_ w' = nb :: init ∧
    format_desc_ w' = format_desc_ w ∧
    (∀ fd n rp, ev_produce fd n rp ∈ drop (length (trace w)) (trace w') →
       fd = format_desc_ w ∧ n = nb) ∧
    (∀ frames fd n rm,
       ev_mix frames fd n rm ∈ drop (length (trace w)) (trace w') →
       fd = format_desc_ w ∧
       head (audio_cadence (format_desc_ w)) = Some n ∧
       ev_produce fd nb (Returned frames) ∈ drop (length (trace w)) (trace w') ∧
       (head (audio_cadence (format_desc_ w)) ≠ Some nb → n ≠ nb)) ∧
    (∀ tcp tcs rp stg,
       timecode_tick false (timecode_ w) = (Returned tcp, tcs) →
       stage_call (format_desc_ w) nb (stage_ w) = (rp, stg) →
       ev_produce (format_desc_ w) nb rp
         ∈ drop (length (trace w)) (trace w') ∧
       stage_ w' = stg ∧
       ∀ frames tc tcs',
         rp = Returned frames →
         timecode_tick true tcs = (Returned tc, tcs') →
         ∃ n0,
           head (audio_cadence (format_desc_ w)) = Some n0 ∧
           ∀ rm mx,
             mixer_call frames (format_desc_ w) n0 (mixer_ w) = (rm, mx) →
             ev_mix frames (format_desc_ w) n0 rm
               ∈ drop (length (trace w)) (trace w') ∧
             mixer_ w' = mx).
Proof.
  intros Hrun. pose proof (tick_body_spec w) as Hspec. rewrite Hrun in Hspec.
  destruct Hspec as (rot & nb & new & Hrot & Hnb & Htick & Htr & Hc1 & Hf1 & _).
  destruct (rotate_last_some _ _ Hrot) as (x & init & Hcad & ->).
  injection Hnb as ->.
  pose proof (tick_body_calls w) as Hcalls. rewrite Hrun in Hcalls.
  destruct Hcalls as (nb' & init' & new' & Hcad' & _ & Htr' & Hcasc).
  rewrite Hcad in Hcad'. apply app_inj_tail in Hcad' as [_ <-].
  rewrite Htr in Htr'. apply app_inv_head in Htr'. injection Htr' as <-.
  exists nb, init. rewrite Htr, drop_app_length. split_and!; try done.
  - intros fd n rp. rewrite elem_of_cons. intros [?|Hin]; [done|].
    by destruct (tick_run_produce _ _ _ _ _ _ _ Htick Hin) as (-> & -> & _).
  - intros frames fd n rm. rewrite !elem_of_cons. intros [?|Hin]; [done|].
    destruct (tick_run_mix _ _ _ _ _ _ _ _ Htick Hin) as (-> & Hn & Hp).
    split_and!; [done | done | by right |].
    intros Hne ->. by rewrite Hn in Hne.
  - intros tcp tcs rp stg Hpred Hstage.
    destruct (Hcasc tcp tcs rp stg Hpred Hstage) as (Hin & Hstg & Hmixer).
    split_and!; [by right | done |].
    intros frames tc tcs' Hrp Hcommit.
    destruct (Hmixer frames tc tcs' Hrp Hcommit) as (n0 & Hn0 & Hmix).
    exists n0. split; [done|]. intros rm mx Hcall.
    destruct (Hmix rm mx Hcall) as [Hin' Hmx]. split; [by right | done].
Qed.

(** ** The format setter and the tick after it *)

(** C6: when the setter returns, the channel stores the new descriptor, its
    cadence vector is the cadence of the new descriptor, the timecode has
    gone through [change_format] and the stage through [clear].  The next
    tick runs when the new cadence is not empty; it snapshots the new
    descriptor, rotates the new cadence and, once the predicting tick has
    returned, calls the stage, in the state [clear] left it in, with the new
    descriptor and the front of the rotated new cadence. *)
Theorem format_change_applied (w w' : impl) (new_fd : video_format_desc) :
  set_video_format_desc new_fd w = Some (Returned tt, w') →
  format_desc_ w' = new_fd ∧
  audio_cadence_ w' = audio_cadence new_fd ∧
  timecode_change_format new_fd (timecode_ w) = (Returned tt, timecode_ w') ∧
  stage_clear (stage_ w) = (Returned tt, stage_ w') ∧
  (audio_cadence new_fd ≠ [] → ∃ r w'', tick_body w' = Some (r, w'')) ∧
  ∀ r w'', tick_body w' = Some (r, w'') →
    ∃ nb init new,
      audio_cadence new_fd = init ++ [nb] ∧
      audio_cadence_ w'' = nb :: init ∧
      format_desc_ w'' = new_fd ∧
      trace w'' = trace w' ++ ev_snapshot new_fd nb :: new ∧
      (∀ fd n rp, ev_produce fd n rp ∈ new →
         fd = new_fd ∧ n = nb ∧
         rp = (stage_call new_fd nb (stage_clear (stage_ w)).2).1) ∧
      (∀ frames fd n rm, ev_mix frames fd n rm ∈ new → fd = new_fd) ∧
      (∀ tcp tcs rp stg,
         timecode_tick false (timecode_ w') = (Returned tcp, tcs) →
         stage_call new_fd nb (stage_clear (stage_ w)).2 = (rp, stg) →
         ev_produce new_fd nb rp ∈ new ∧ stage_ w'' = stg).
Proof.
  intros Hset.
  assert (format_desc_ w' = new_fd ∧
          audio_cadence_ w' = audio_cadence new_fd ∧
          timecode_change_format new_fd (timecode_ w)
            = (Returned tt, timecode_ w') ∧
          stage_clear (stage_ w) = (Returned tt, stage_ w'))
    as (Hfd & Hc & Htc & Hclear).
  { revert Hset. unfold set_video_format_desc.
    repeat (rewrite bind_run; simpl). rewrite raise_of_run.
    destruct (timecode_change_format new_fd (timecode_ w)) as [[[]|e] tcs]
      eqn:Htc; simpl; [|done].
    repeat (rewrite bind_run; simpl). rewrite raise_of_run.
    destruct (stage_clear (stage_ w)) as [[[]|e] stg] eqn:Hstg; simpl; [|done].
    intros [= <-]. by simpl. }
  split_and!; try done.
  - intros Hne. pose proof (tick_body_spec w') as Hspec.
    destruct (tick_body w') as [[r w'']|]; [by eauto|].
    rewrite Hc, Hfd in Hspec. by destruct Hspec.
  - intros r w'' Hrun.
    pose proof (tick_body_spec w') as Hspec. rewrite Hrun in Hspec.
    destruct Hspec as (rot & nb & new & Hrot & Hnb & Htick & Htr & Hc1 & Hf1 & _).
    destruct (rotate_last_some _ _ Hrot) as (x & init & Hcad & ->).
    injection Hnb as ->.
    pose proof (tick_body_calls w') as Hcalls. rewrite Hrun in Hcalls.
    destruct Hcalls as (nb' & init' & new' & Hcad' & _ & Htr' & Hcasc).
    rewrite Hcad in Hcad'. apply app_inj_tail in Hcad' as [_ <-].
    rewrite Htr in Htr'. apply app_inv_head in Htr'. injection Htr' as <-.
    rewrite Hclear. cbn [snd]. rewrite Hfd in *.
    exists nb, init, new. split_and!; try done.
    + by rewrite <- Hc.
    + intros fd n rp Hin.
      destruct (tick_run_produce _ _ _ _ _ _ _ Htick Hin) as (-> & -> & ->).
      by rewrite Hfd.
    + intros frames fd n rm Hin.
      by destruct (tick_run_mix _ _ _ _ _ _ _ _ Htick Hin) as (-> & _).
    + intros tcp tcs rp stg Hpred Hstage.
      by destruct (Hcasc tcp tcs rp stg Hpred Hstage) as (Hin & Hstg & _).
Qed.

(** ** Routes over the life of a channel *)

Lemma set_video_format_desc_keeps_routes format_desc w0 :
  preserves (λ v, routes_ v = routes_ w0 ∧ route_heap v = route_heap w0)
    (set_video_format_desc format_desc).
Proof. unfold set_video_format_desc. leaves_alone. Qed.

(** X9: a route keeps the format it was created with.  After a change of
    format, the route that is alive under a key is still the one [route]
    returns, with the format and the name it had, while the channel stores
    the new format. *)
Theorem route_keeps_its_format (index : Z) (format_desc : video_format_desc)
    (w : impl) (a : route_ptr) (r : core_route) :
  alive_route w index a r →
  ∃ res w1 n w2,
    set_video_format_desc format_desc w = Some (res, w1) ∧
    format_desc_ w1 = format_desc ∧
    route index w1 = Some (Returned a, w2) ∧
    route_heap w2 !! a = Some (r, S (S n)) ∧
    format_desc_ w2 = format_desc.
Proof.
  intros (weak & Hweak & Hlock).
  destruct (set_video_format_desc_run format_desc w)
    as (res & w1 & Hrun & Hfd & _).
  destruct (set_video_format_desc_keeps_routes format_desc w w res w1)
    as [Hroutes Hheap]; [done | done |].
  assert (alive_route w1 index a r) as Halive.
  { exists weak. by rewrite Hroutes, Hheap. }
  destruct (route_alive_run _ _ _ _ Halive) as (n & Hn & Hroute).
  exists res, w1, n. eexists.
  split_and!; [done | done | exact Hroute | |]; fields.
  - rewrite list_lookup_insert_eq; [done|]. by eapply lookup_lt_Some.
  - done.
Qed.

(** X10: when the holder of the only strong reference lets go of a route,
    the channel keeps the entry but no longer signals under the key, and the
    next [route] for the key makes a new route, another object than the one
    that died, and registers it. *)
Theorem dead_route_is_replaced (index : Z) (w : impl) (a : route_ptr)
    (r : core_route) :
  alive_route w index a r →
  route_heap w !! a = Some (r, 1%nat) →
  ∃ w1 w2,
    release a w = Some (Returned tt, w1) ∧
    routes_ w1 = routes_ w ∧
    (∀ a' r', ¬ alive_route w1 index a' r') ∧
    (∀ frame, route_events (routes_ w1) (route_heap w1) index frame = []) ∧
    route index w1 = Some (Returned (length (route_heap w)), w2) ∧
    length (route_heap w) ≠ a ∧
    alive_route w2 index (length (route_heap w)) (new_route w index).
Proof.
  intros (weak & Hweak & Hlock) Hone.
  destruct (weak_lock_some _ _ _ _ Hlock) as [-> _].
  pose proof (lookup_lt_Some _ _ _ Hone) as Hlt.
  set (w1 := set_route_heap (<[a := (r, 0%nat)]> (route_heap w)) w).
  assert (release a w = Some (Returned tt, w1)) as Hrel.
  { unfold release, modify. by rewrite Hone. }
  assert (∀ a' r', ¬ alive_route w1 index a' r') as Hdead.
  { intros a' r' (weak' & Hweak' & Hlock'). unfold w1 in *. fields.
    rewrite Hweak in Hweak'. injection Hweak' as <-.
    cbn [weak_lock] in Hlock'.
    by rewrite list_lookup_insert_eq in Hlock'. }
  assert (length (route_heap w1) = length (route_heap w)) as Hlen.
  { unfold w1. fields. apply length_insert. }
  pose proof (route_fresh_run w1 index Hdead) as Hroute.
  rewrite Hlen in Hroute.
  exists w1. eexists.
  split_and!; [done | done | done | | exact Hroute | lia |].
  - intros frame. unfold route_events, w1. fields. rewrite Hweak.
    cbn [weak_lock]. by rewrite list_lookup_insert_eq.
  - eexists. fields. rewrite lookup_insert_eq. split; [done|].
    cbn [weak_lock]. rewrite lookup_app_r; rewrite Hlen; [|lia].
    rewrite Nat.sub_diag. unfold new_route, w1. by fields.
Qed.

(** ** Names of routes *)

Lemma route_name_of_inj channel_index : Inj eq eq (route_name_of channel_index).
Proof.
  intros i j. unfold route_name_of.
  destruct (decide (i = -1)) as [->|Hi], (decide (j = -1)) as [->|Hj];
    [done | | |].
  - by intros [=]%String.app_inj.
  - by intros [=]%String.app_inj.
  - intros Heq%String.app_inj. injection Heq as Heq.
    by apply pretty_Z_inj in Heq.
Qed.

Lemma preserves_routes_named_route index : preserves routes_named (route index).
Proof.
  intros w res w' Hnamed Hrun.
  destruct (alive_or_not w index) as [(a & r & Halive)|Hdead].
  - destruct (route_alive_run _ _ _ _ Halive) as (n & Hn & Hrun').
    rewrite Hrun' in Hrun. injection Hrun as _ <-.
    intros key b Hkey. fields. destruct (Hnamed key b Hkey) as (r' & n' & Hb & Hname).
    destruct (decide (b = a)) as [->|Hne].
    + rewrite Hn in Hb. injection Hb as <- <-.
      exists r, (S (S n)). split; [|done].
      rewrite list_lookup_insert_eq; [done|]. by eapply lookup_lt_Some.
    + exists r', n'. split; [|done]. by rewrite list_lookup_insert_ne.
  - rewrite (route_fresh_run _ _ Hdead) in Hrun. injection Hrun as _ <-.
    intros key b. fields. rewrite lookup_insert.
    case_decide as Hkey; [subst key|].
    + intros [= <-]. exists (new_route w index), 1%nat. split; [|done].
      by rewrite lookup_app_r, Nat.sub_diag by lia.
    + intros Hb. destruct (Hnamed key b Hb) as (r' & n' & Hl & Hname).
      exists r', n'. split; [|done]. rewrite lookup_app_l; [done|].
      by eapply lookup_lt_Some.
Qed.

Lemma preserves_routes_named_release a : preserves routes_named (release a).
Proof.
  apply preserves_modify. intros w Hnamed.
  destruct (route_heap w !! a) as [[r [|n]]|] eqn:Ha; try done.
  intros key b Hkey. fields. destruct (Hnamed key b Hkey) as (r' & n' & Hb & Hname).
  destruct (decide (b = a)) as [->|Hne].
  - rewrite Ha in Hb. injection Hb as <- <-. exists r, n. split; [|done].
    rewrite list_lookup_insert_eq; [done|]. by eapply lookup_lt_Some.
  - exists r', n'. split; [|done]. by rewrite list_lookup_insert_ne.
Qed.

Lemma preserves_routes_named_api c : preserves routes_named (api c).
Proof.
  destruct c; simpl.
  - unfold routes_named. leaves_alone.
  - unfold routes_named. leaves_alone.
  - apply preserves_bind; [apply preserves_routes_named_route|].
    intros ?. apply preserves_ret.
  - apply preserves_routes_named_release.
  - unfold routes_named, set_video_format_desc. leaves_alone.
  - unfold routes_named, loop_iteration, tick_body, invoke, graph_set_value,
      state_clear, state_insert_or_assign, state_assign,
      invoke_timecode_listeners, invoke_listener, fan_out.
    leaves_alone.
  - unfold routes_named. leaves_alone.
Qed.

Lemma reachable_routes_named w : reachable w → routes_named w.
Proof.
  induction 1 as [|w c r w' _ IH Hrun]; [by intros key a Hkey|].
  by eapply preserves_routes_named_api.
Qed.

(** X11: on every channel that the constructor and the interface can
    produce, the live routes of different keys are different objects with
    different names: two live routes are the same object, and carry the same
    name, exactly when their keys are equal. *)
Theorem routes_told_apart (w : impl) (i j : Z) (a b : route_ptr)
    (r r' : core_route) :
  reachable w →
  alive_route w i a r → alive_route w j b r' →
  (a = b ↔ i = j) ∧ (route_name r = route_name r' ↔ i = j) ∧
  route_name r = route_name_of (index_ w) i.
Proof.
  intros Hreach Hi Hj.
  pose proof (reachable_inv w Hreach) as (_ & Hdist & _).
  pose proof (reachable_routes_named w Hreach) as Hnamed.
  assert (∀ k c ro, alive_route w k c ro →
            routes_ w !! k = Some (Some c) ∧
            route_name ro = route_name_of (index_ w) k) as Hname.
  { intros k c ro (weak & Hweak & Hlock).
    destruct (weak_lock_some _ _ _ _ Hlock) as [-> (n & Hn)].
    split; [done|]. destruct (Hnamed k c Hweak) as (ro' & n' & Hc & Hnm).
    rewrite Hn in Hc. by injection Hc as <- <-. }
  destruct (Hname i a r Hi) as [Hri Hni], (Hname j b r' Hj) as [Hrj Hnj].
  split_and!; [| |done].
  - split.
    + intros <-. by eapply Hdist.
    + intros <-. by destruct (alive_route_unique _ _ _ _ _ _ Hi Hj).
  - split.
    + rewrite Hni, Hnj. apply route_name_of_inj.
    + intros <-. by destruct (alive_route_unique _ _ _ _ _ _ Hi Hj) as [_ <-].
Qed.

End channel_facts.

(** * The channel in the studio *)

Section studio_facts.
Import Studio.
#[local] Existing Instance studio.
#[local] Existing Instance ascending.

Lemma reachable_after `{UnorderedMap} c w : reachable w → reachable (after c w).
Proof.
  intros Hw. unfold after. destruct (api c w) as [[r w']|] eqn:Hrun; [|done].
  by eapply reachable_call.
Qed.

Lemma cadence_rotation_period_witness :
  audio_cadence_ two_layers ≠ [] ∧
  audio_cadence (format_desc_ two_layers) ≠ [] ∧
  abort_request_ two_layers = false ∧
  ∃ w' new,
    thread_main (2 + 5) two_layers = Some (Returned tt, w') ∧
    trace w' = trace two_layers ++ new ∧
    take 5 (drop 2 (samples new)) ≡ₚ [1602; 1601; 1602; 1601; 1602] ∧
    sum_Z (take 5 (drop 2 (samples new))) = 8008.
Proof.
  split_and!; [done | done | reflexivity |].
  destruct (cadence_rotation_period two_layers 2)
    as (w' & new & Hrun & Htr & _ & _ & _ & Hperm & Hsum);
    [done | done | reflexivity |].
  exists w', new. split_and!; [exact Hrun | exact Htr | exact Hperm | exact Hsum].
Defined.

Lemma tick_failure_contained_witness :
  tick_body bad_mixer = Some (Threw "mixer", bad_mixer_failed) ∧
  abort_request_ bad_mixer = false ∧
  audio_cadence (format_desc_ bad_mixer) ≠ [] ∧
  loop_iteration bad_mixer =
    Some (Returned tt,
          set_trace (trace bad_mixer_failed ++ [ev_logged "mixer"]) bad_mixer_failed).
Proof.
  assert (tick_body bad_mixer = Some (Threw "mixer", bad_mixer_failed)) as Hrun
    by (vm_compute; reflexivity).
  split_and!; [exact Hrun | reflexivity | done |].
  destruct (tick_failure_contained bad_mixer bad_mixer_failed "mixer" 0 Hrun)
    as (_ & Hloop & _); [reflexivity | done |].
  exact Hloop.
Defined.

Lemma route_fan_out_witness :
  NoDup [(0, leaf 10); (1, leaf 11)].*1 ∧
  (∀ k, k ∈ [(0, leaf 10); (1, leaf 11)].*1 → 0 ≤ k) ∧
  routes_distinct (routes_ two_routes) ∧
  Forall (λ e, escapes e = None)
    (fan_out_events (routes_ two_routes) (route_heap two_routes)
       [(0, leaf 10); (1, leaf 11)]) ∧
  ∃ S, fan_out [(0, leaf 10); (1, leaf 11)] two_routes =
         Some (Returned tt,
               set_trace (trace two_routes ++
                          ev_fanout [(0, leaf 10); (1, leaf 11)] :: S) two_routes) ∧
       (∃ before after,
          signals S = before ++ (0, 0%nat, popped (leaf 10)) :: after ∧
          Forall (λ s, s.1.2 ≠ 0%nat) (before ++ after)) ∧
       (∃ before,
          signals S = before ++ [(-1, 1%nat, group [leaf 10; leaf 11])] ∧
          Forall (λ s, s.1.2 ≠ 1%nat) before) ∧
       Forall (λ s, s.1.1 ≠ 1) (signals S).
Proof.
  assert (NoDup [(0, leaf 10); (1, leaf 11)].*1) as Hnodup by compute_done.
  assert (∀ k, k ∈ [(0, leaf 10); (1, leaf 11)].*1 → 0 ≤ k) as Hpos.
  { intros k Hk. simpl in Hk. rewrite !elem_of_cons in Hk.
    destruct Hk as [->|[->|Hk]]; [lia | lia | by apply elem_of_nil in Hk]. }
  assert (routes_distinct (routes_ two_routes)) as Hdist.
  { apply (reachable_inv two_routes).
    do 2 apply reachable_after. apply reachable_make. }
  assert (Forall (λ e, escapes e = None)
            (fan_out_events (routes_ two_routes) (route_heap two_routes)
               [(0, leaf 10); (1, leaf 11)])) as Hok.
  { vm_compute. repeat constructor. }
  split_and!; [exact Hnodup | exact Hpos | exact Hdist | exact Hok |].
  destruct (route_fan_out two_routes [(0, leaf 10); (1, leaf 11)]
              Hnodup Hpos Hdist Hok)
    as (S & Hrun & _ & Hlayer & Hwhole & Hnone).
  exists S. split_and!; [exact Hrun | | |].
  - apply (Hlayer 0 (leaf 10) 0%nat (new_route two_layers 0)); [left|].
    exists (Some 0%nat). split; vm_compute; reflexivity.
  - apply (Hwhole 1%nat (new_route two_layers (-1))).
    exists (Some 1%nat). split; vm_compute; reflexivity.
  - apply Hnone. intros a r (weak & Hweak & _). vm_compute in Hweak. done.
Defined.

Lemma listener_ids_fresh_witness :
  reachable two_listeners ∧
  Z.of_nat (length (registered (trace two_listeners))) ≤ INT64_MAX ∧
  ∃ t w',
    add_timecode_listener quiet two_listeners = Some (Returned t, w') ∧
    ∀ id, id ∈ registered (trace two_listeners) → id < token_id t.
Proof.
  assert (reachable two_listeners) as Hreach
    by (do 2 apply reachable_after; apply reachable_make).
  assert (Z.of_nat (length (registered (trace two_listeners))) ≤ INT64_MAX)
    as Hfew by (vm_compute; discriminate).
  split_and!; [exact Hreach | exact Hfew |].
  destruct (listener_ids_fresh two_listeners quiet Hreach Hfew)
    as (t & w' & Hrun & _ & Hlt & _).
  by exists t, w'.
Defined.

Lemma listeners_all_invoked_witness :
  tick_body two_listeners = Some (Returned tt, two_listeners_ticked) ∧
  ev_commit (Returned 1)
    ∈ drop (length (trace two_listeners)) (trace two_listeners_ticked) ∧
  listener_calls (drop (length (trace two_listeners)) (trace two_listeners_ticked))
    = [(0, 1, Threw "listener"); (1, 1, Returned tt)].
Proof.
  assert (tick_body two_listeners = Some (Returned tt, two_listeners_ticked))
    as Hrun by (vm_compute; reflexivity).
  assert (ev_commit (Returned 1)
            ∈ drop (length (trace two_listeners)) (trace two_listeners_ticked))
    as Hcommit.
  { vm_compute. do 3 right. left. }
  split_and!; [exact Hrun | exact Hcommit |].
  destruct (@listeners_all_invoked studio ascending 1 two_listeners)
    as (_ & _ & _ & Htick).
  rewrite (Htick _ _ 1 Hrun Hcommit). vm_compute. reflexivity.
Defined.

Lemma listener_order_is_iteration_order_witness :
  StronglySorted Z.lt (bucket_order (dom (timecode_listeners_ two_listeners))) ∧
  0 < 1 ∧
  is_Some (timecode_listeners_ two_listeners !! 0) ∧
  is_Some (timecode_listeners_ two_listeners !! 1) ∧
  ∃ w' L,
    invoke_timecode_listeners 7 two_listeners = Some (Returned tt, w') ∧
    precedes 0 1 (listener_calls L).*1.*1.
Proof.
  assert (StronglySorted Z.lt
            (bucket_order (dom (timecode_listeners_ two_listeners)))) as Hsorted.
  { vm_compute. repeat constructor. }
  assert (is_Some (timecode_listeners_ two_listeners !! 0)) as H0
    by (vm_compute; eauto).
  assert (is_Some (timecode_listeners_ two_listeners !! 1)) as H1
    by (vm_compute; eauto).
  split_and!; [exact Hsorted | lia | exact H0 | exact H1 |].
  destruct (@listener_order_is_iteration_order studio ascending 7 two_listeners)
    as (w' & L & Hrun & _ & _ & _ & Hasc).
  exists w', L. split; [exact Hrun|]. apply Hasc; [exact Hsorted | lia | exact H0 | exact H1].
Defined.

(** C2 against the code: on a table that iterates in descending order the
    listener registered second is called first, so listeners are not called
    in ascending id order whatever the table. *)
Lemma listener_order_counterexample :
  ¬ (∀ (U : UnorderedMap) (w w' : impl) (tc : Z) (i j : Z),
       i < j →
       is_Some (timecode_listeners_ w !! i) →
       is_Some (timecode_listeners_ w !! j) →
       @invoke_timecode_listeners studio U tc w = Some (Returned tt, w') →
       precedes i j
         (listener_calls (drop (length (trace w)) (trace w'))).*1.*1).
Proof.
  intros Hclaim.
  pose (w := @after descending (call_add_timecode_listener faulty)
               (@after descending (call_add_timecode_listener quiet)
                  (channel [] []))).
  pose (w' := match @invoke_timecode_listeners studio descending 7 w with
              | Some (_, w') => w'
              | None => w
              end).
  assert (@invoke_timecode_listeners studio descending 7 w = Some (Returned tt, w'))
    as Hrun by (vm_compute; reflexivity).
  assert (is_Some (timecode_listeners_ w !! 0)) as H0 by (vm_compute; eauto).
  assert (is_Some (timecode_listeners_ w !! 1)) as H1 by (vm_compute; eauto).
  assert ((listener_calls (drop (length (trace w)) (trace w'))).*1.*1 = [1; 0])
    as Hcalls by (vm_compute; reflexivity).
  pose proof (Hclaim descending w w' 7 0 1 ltac:(lia) H0 H1 Hrun) as Hbefore.
  rewrite Hcalls in Hbefore. destruct Hbefore as (l1 & l2 & l3 & Heq).
  clear -Heq. destruct l1 as [|a [|b l1]]; simplify_eq/=.
  - by destruct l2.
  - by destruct l1.
Qed.

Lemma loop_iteration_frame_witness :
  loop_iteration bad_mixer =
    Some (Returned tt, after call_loop_iteration bad_mixer) ∧
  loop_frame bad_mixer (after call_loop_iteration bad_mixer) ∧
  print (after call_loop_iteration bad_mixer) =
    Some (Returned "video_channel[1|1080i5994]",
          after call_loop_iteration bad_mixer).
Proof.
  assert (loop_iteration bad_mixer =
            Some (Returned tt, after call_loop_iteration bad_mixer)) as Hrun
    by (vm_compute; reflexivity).
  assert (print bad_mixer =
            Some (Returned "video_channel[1|1080i5994]", bad_mixer)) as Hprint
    by (vm_compute; reflexivity).
  destruct (loop_iteration_frame bad_mixer _ _ Hrun)
    as (_ & Hframe & _ & label & Hbefore & Hafter).
  split_and!; [exact Hrun | exact Hframe |].
  rewrite Hprint in Hbefore. injection Hbefore as <-. exact Hafter.
Defined.

Lemma cadence_stays_in_phase_witness :
  reachable two_turns ∧
  audio_cadence_ two_turns = [1601; 1602; 1602; 1601; 1602] ∧
  cadence_in_phase two_turns ∧
  audio_cadence_ two_turns ≡ₚ audio_cadence (format_desc_ two_turns).
Proof.
  assert (reachable two_turns) as Hreach
    by (do 2 apply reachable_after; apply reachable_make).
  destruct (cadence_stays_in_phase two_turns Hreach) as (Hphase & Hperm & _).
  split_and!; [exact Hreach | reflexivity | exact Hphase | exact Hperm].
Defined.

Lemma loop_never_undefined_witness :
  reachable two_listeners ∧
  audio_cadence (format_desc_ two_listeners) ≠ [] ∧
  ∃ w', thread_main 3 two_listeners = Some (Returned tt, w').
Proof.
  assert (reachable two_listeners) as Hreach
    by (do 2 apply reachable_after; apply reachable_make).
  split_and!; [exact Hreach | done |].
  apply (loop_never_undefined two_listeners 3 Hreach). done.
Defined.

Lemma add_then_drop_restores_witness :
  reachable two_listeners ∧
  Z.of_nat (length (registered (trace two_listeners))) ≤ INT64_MAX ∧
  ∃ t w1 w2 t' w3,
    add_timecode_listener quiet two_listeners = Some (Returned t, w1) ∧
    drop_token t w1 = Some (Returned tt, w2) ∧
    timecode_listeners_ w2 = timecode_listeners_ two_listeners ∧
    add_timecode_listener faulty w2 = Some (Returned t', w3) ∧
    token_id t' ≠ token_id t.
Proof.
  assert (reachable two_listeners) as Hreach
    by (do 2 apply reachable_after; apply reachable_make).
  assert (Z.of_nat (length (registered (trace two_listeners))) ≤ INT64_MAX)
    as Hfew by (vm_compute; discriminate).
  split_and!; [exact Hreach | exact Hfew |].
  exact (add_then_drop_restores two_listeners quiet faulty Hreach Hfew).
Defined.

Lemma route_keeps_its_format_witness :
  alive_route two_routes 0 0%nat (new_route two_layers 0) ∧
  ∃ res w1 n w2,
    set_video_format_desc pal two_routes = Some (res, w1) ∧
    format_desc_ w1 = pal ∧
    route 0 w1 = Some (Returned 0%nat, w2) ∧
    route_heap w2 !! 0%nat = Some (new_route two_layers 0, S (S n)) ∧
    route_format_desc (new_route two_layers 0) = ntsc.
Proof.
  assert (alive_route two_routes 0 0%nat (new_route two_layers 0)) as Halive.
  { exists (Some 0%nat). split; vm_compute; reflexivity. }
  split; [exact Halive|].
  destruct (route_keeps_its_format 0 pal two_routes _ _ Halive)
    as (res & w1 & n & w2 & Hset & Hfd & Hroute & Hheap & _).
  exists res, w1, n, w2. split_and!; [done | done | done | done | reflexivity].
Defined.

Lemma dead_route_is_replaced_witness :
  alive_route two_routes 0 0%nat (new_route two_layers 0) ∧
  route_heap two_routes !! 0%nat = Some (new_route two_layers 0, 1%nat) ∧
  ∃ w1 w2,
    release 0 two_routes = Some (Returned tt, w1) ∧
    (∀ frame, route_events (routes_ w1) (route_heap w1) 0 frame = []) ∧
    route 0 w1 = Some (Returned 2%nat, w2) ∧
    alive_route w2 0 2%nat (new_route two_routes 0).
Proof.
  assert (alive_route two_routes 0 0%nat (new_route two_layers 0)) as Halive.
  { exists (Some 0%nat). split; vm_compute; reflexivity. }
  assert (route_heap two_routes !! 0%nat = Some (new_route two_layers 0, 1%nat))
    as Hone by (vm_compute; reflexivity).
  split_and!; [exact Halive | exact Hone |].
  destruct (dead_route_is_replaced 0 two_routes _ _ Halive Hone)
    as (w1 & w2 & Hrel & _ & _ & Hsilent & Hroute & _ & Hnew).
  exists w1, w2. split_and!; [exact Hrel | exact Hsilent | exact Hroute | exact Hnew].
Defined.

Lemma routes_told_apart_witness :
  reachable two_routes ∧
  alive_route two_routes 0 0%nat (new_route two_layers 0) ∧
  alive_route two_routes (-1) 1%nat (new_route two_layers (-1)) ∧
  route_name (new_route two_layers 0) ≠ route_name (new_route two_layers (-1)).
Proof.
  assert (reachable two_routes) as Hreach
    by (do 2 apply reachable_after; apply reachable_make).
  assert (alive_route two_routes 0 0%nat (new_route two_layers 0)) as Hlayer.
  { exists (Some 0%nat). split; vm_compute; reflexivity. }
  assert (alive_route two_routes (-1) 1%nat (new_route two_layers (-1))) as Hwhole.
  { exists (Some 1%nat). split; vm_compute; reflexivity. }
  split_and!; [exact Hreach | exact Hlayer | exact Hwhole |].
  destruct (routes_told_apart two_routes 0 (-1) _ _ _ _ Hreach Hlayer Hwhole)
    as (_ & Hnames & _).
  intros Heq. apply Hnames in Heq. discriminate Heq.
Defined.

Lemma tick_stage_order_witness :
  tick_body on_air = Some (Returned tt, on_air_ticked) ∧
  audio_cadence_ on_air = [1602; 1601; 1602; 1601; 1602] ∧
  audio_cadence_ on_air_ticked = [1602; 1602; 1601; 1602; 1601] ∧
  stages (drop (length (trace on_air)) (trace on_air_ticked)) = all_stages ∧
  listener_calls (drop (length (trace on_air)) (trace on_air_ticked))
    = [(0, 1, Threw "listener"); (1, 1, Returned tt)] ∧
  signals (drop (length (trace on_air)) (trace on_air_ticked))
    = [(0, 0%nat, popped (leaf 10)); (-1, 1%nat, group [leaf 10; leaf 11])] ∧
  state_ on_air_ticked =
    [("stage", inl 2%nat); ("mixer", inl 0%nat); ("output", inl 1%nat);
     ("timecode", inr "00:00:00:00"); ("timecode/source", inr "system")].
Proof.
  assert (tick_body on_air = Some (Returned tt, on_air_ticked)) as Hrun
    by (vm_compute; reflexivity).
  destruct (tick_stage_order on_air on_air_ticked Hrun)
    as (nb & init & tcp & tcs & frames & stg & tc & tcs' & L & n0 & mixed
        & mx & out & S & snk & Hcad & Hcad' & Hpred & Hprod & Hcommit
        & Hcalls & Hreg & Hn0 & Hmix & Hout & Hfan & Hpub & Htr & Hstate
        & _ & _ & _ & _ & _ & _ & _ & Hstages).
  assert (audio_cadence_ on_air = [1602; 1601; 1602; 1601; 1602]) as Hbefore
    by (vm_compute; reflexivity).
  rewrite Hbefore in Hcad.
  change [1602; 1601; 1602; 1601; 1602]
    with ([1602; 1601; 1602; 1601] ++ [1602]) in Hcad.
  apply app_inj_tail in Hcad as [<- <-].
  split_and!; [exact Hrun | exact Hbefore | exact Hcad' | exact Hstages | | |];
    vm_compute; reflexivity.
Defined.

Lemma mixer_samples_not_rotated_witness :
  tick_body one_turn = Some (Returned tt, two_turns) ∧
  audio_cadence_ one_turn = [1602; 1602; 1601; 1602; 1601] ∧
  ev_produce ntsc 1601 (Returned [(0, leaf 10); (1, leaf 11)])
    ∈ drop (length (trace one_turn)) (trace two_turns) ∧
  ev_mix [(0, leaf 10); (1, leaf 11)] ntsc 1602
      (Returned ([(0, leaf 10); (1, leaf 11)], 1602))
    ∈ drop (length (trace one_turn)) (trace two_turns).
Proof.
  assert (tick_body one_turn = Some (Returned tt, two_turns)) as Hrun
    by (vm_compute; reflexivity).
  assert (audio_cadence_ one_turn = [1602; 1602; 1601; 1602; 1601]) as Hbefore
    by (vm_compute; reflexivity).
  destruct (mixer_samples_not_rotated one_turn two_turns (Returned tt) Hrun)
    as (nb & init & Hc & _ & _ & _ & _ & Hcalls).
  rewrite Hbefore in Hc.
  change [1602; 1602; 1601; 1602; 1601]
    with ([1602; 1602; 1601; 1602] ++ [1601]) in Hc.
  apply app_inj_tail in Hc as [<- <-].
  assert (timecode_tick false (timecode_ one_turn) = (Returned 2, 1)) as Hpred
    by (vm_compute; reflexivity).
  assert (stage_call (format_desc_ one_turn) 1601 (stage_ one_turn)
            = (Returned [(0, leaf 10); (1, leaf 11)],
               [(0, leaf 10); (1, leaf 11)])) as Hstage
    by (vm_compute; reflexivity).
  destruct (Hcalls _ _ _ _ Hpred Hstage) as (Hproduced & _ & Hmixer).
  assert (timecode_tick true 1 = (Returned 2, 2)) as Hcommit
    by (vm_compute; reflexivity).
  destruct (Hmixer _ _ _ eq_refl Hcommit) as (n0 & Hn0 & Hmixed).
  vm_compute in Hn0. injection Hn0 as <-.
  assert (mixer_call [(0, leaf 10); (1, leaf 11)] (format_desc_ one_turn) 1602
            (mixer_ one_turn)
            = (Returned ([(0, leaf 10); (1, leaf 11)], 1602), [])) as Hmix
    by (vm_compute; reflexivity).
  destruct (Hmixed _ _ Hmix) as [Hmixed' _].
  split_and!; [exact Hrun | exact Hbefore | exact Hproduced | exact Hmixed'].
Defined.

Lemma format_change_applied_witness :
  set_video_format_desc pal two_layers = Some (Returned tt, on_pal) ∧
  format_desc_ on_pal = pal ∧ audio_cadence_ on_pal = [1920] ∧
  stage_clear (stage_ two_layers) = (Returned tt, []) ∧
  tick_body on_pal = Some (Returned tt, on_pal_ticked) ∧
  ev_produce pal 1920 (Returned [])
    ∈ drop (length (trace on_pal)) (trace on_pal_ticked).
Proof.
  assert (set_video_format_desc pal two_layers = Some (Returned tt, on_pal))
    as Hset by (vm_compute; reflexivity).
  assert (tick_body on_pal = Some (Returned tt, on_pal_ticked)) as Hrun
    by (vm_compute; reflexivity).
  destruct (format_change_applied two_layers on_pal pal Hset)
    as (Hfd & Hc & _ & Hclear & _ & Hnext).
  destruct (Hnext _ _ Hrun)
    as (nb & init & new & Hcad & _ & _ & Htr & _ & _ & Hcalled).
  change (audio_cadence pal) with ([] ++ [1920]) in Hcad.
  apply app_inj_tail in Hcad as [<- <-].
  assert (timecode_tick false (timecode_ on_pal) = (Returned 1, 0)) as Hpred
    by (vm_compute; reflexivity).
  assert (stage_call pal 1920 (stage_clear (stage_ two_layers)).2
            = (Returned [], [])) as Hstage
    by (vm_compute; reflexivity).
  destruct (Hcalled _ _ _ _ Hpred Hstage) as [Hproduced _].
  split_and!; [exact Hset | exact Hfd | exact Hc | reflexivity | exact Hrun |].
  rewrite Htr, drop_app_length. right. exact Hproduced.
Defined.

End studio_facts.
